(** * polyjson: a shallow embedding of MarshalWithTypeIDs / UnmarshalWithTypeIDs

    The Go package [polyjson] walks values by reflection.  This development
    models the part of Go's reflection universe the two traversals inspect:
    types (with their kinds), values (with interface slots, pointers, maps,
    slices and structs), the JSON values the traversals produce and consume,
    the [fmt.Errorf] errors they return and the two resolver operations.

    Modelling decisions, in one place:
    - the byte layer is represented by the JSON tree: [MarshalWithTypeIDs]
      returns the tree of the bytes it produces and [UnmarshalWithTypeIDs]
      takes the tree gjson parses; a JSON object is the list of its members
      in text order, so repeated keys are representable;
    - a plain [[]byte] stored in an [any] is serialised by encoding/json as
      a base64 string of those bytes: [render] gives the bytes of a tree
      (compact, as encoding/json writes them) and [base64] encodes them;
    - JSON numbers are integers ([Z]); [float64] values are kept for what
      encoding/json builds when it decodes a number into an [any], and only
      integral ones are represented;
    - a Go map is an association list; iteration over it ([MapRange]) is
      the list order, which stands for one of the orders Go may pick;
    - a pointer owns its pointee (no aliasing): decoding through a pointer
      returns the updated pointer;
    - reflection's panics are a separate outcome [Panic]. *)

From Stdlib Require Import List String Ascii ZArith Bool Lia Permutation Sorting.
Import ListNotations.
Open Scope string_scope.
#[local] Set Warnings "-register-all".

(** ** Types *)

(** A struct field as [reflect.StructField] shows it: its name, its
    [PkgPath] (empty exactly when the field is exported), the value of its
    [json] tag ([Tag.Get("json")], empty when absent) and its type. *)
Inductive ty : Type :=
| TBool
| TInt                                   (* int (64 bits) *)
| TFloat64
| TString
| TIface (name : string) (methods : list string)
| TPtr (elem : ty)
| TMap (key elem : ty)
| TSlice (elem : ty)
| TStruct (name : string) (fields : list (string * string * string * ty)).

Definition field := (string * string * string * ty)%type.
Definition fName (f : field) : string := let '(n, _, _, _) := f in n.
Definition fPkgPath (f : field) : string := let '(_, p, _, _) := f in p.
Definition fTag (f : field) : string := let '(_, _, t, _) := f in t.
Definition fType (f : field) : ty := let '(_, _, _, t) := f in t.

(** [reflect.Kind] *)
Inductive kind := KBool | KInt | KFloat64 | KString | KInterface | KPointer | KMap | KSlice | KStruct.

Definition kindOf (t : ty) : kind :=
  match t with
  | TBool => KBool | TInt => KInt | TFloat64 => KFloat64 | TString => KString
  | TIface _ _ => KInterface | TPtr _ => KPointer | TMap _ _ => KMap
  | TSlice _ => KSlice | TStruct _ _ => KStruct
  end.

Definition kind_eqb (a b : kind) : bool :=
  match a, b with
  | KBool, KBool | KInt, KInt | KFloat64, KFloat64 | KString, KString
  | KInterface, KInterface | KPointer, KPointer | KMap, KMap | KSlice, KSlice
  | KStruct, KStruct => true
  | _, _ => false
  end.

Fixpoint ty_eqb (a b : ty) : bool :=
  match a, b with
  | TBool, TBool | TInt, TInt | TFloat64, TFloat64 | TString, TString => true
  | TIface n ms, TIface n' ms' =>
      String.eqb n n' &&
      ((fix go (l l' : list string) := match l, l' with
         | [], [] => true
         | x :: r, x' :: r' => String.eqb x x' && go r r'
         | _, _ => false end) ms ms')
  | TPtr e, TPtr e' => ty_eqb e e'
  | TMap k e, TMap k' e' => ty_eqb k k' && ty_eqb e e'
  | TSlice e, TSlice e' => ty_eqb e e'
  | TStruct n fs, TStruct n' fs' =>
      String.eqb n n' &&
      ((fix go (l l' : list field) := match l, l' with
         | [], [] => true
         | (a1, b1, c1, t1) :: r, (a2, b2, c2, t2) :: r' =>
             String.eqb a1 a2 && String.eqb b1 b2 && String.eqb c1 c2 &&
             ty_eqb t1 t2 && go r r'
         | _, _ => false end) fs fs')
  | _, _ => false
  end.

(** ** Values *)

(** [VIface name methods dyn] is a value of the interface type
    [TIface name methods]; [dyn] is its dynamic value ([None]: the untyped
    nil).  [VPtr t p] is a [*t] ([None]: nil); [VMap k e m] a [map[k]e]
    ([None]: the nil map); [VSlice e xs] a [[]e] ([None]: the nil slice). *)
Inductive val : Type :=
| VBool (b : bool)
| VInt (z : Z)
| VFloat64 (z : Z)
| VStr (s : string)
| VIface (name : string) (methods : list string) (dyn : option val)
| VPtr (elem : ty) (pointee : option val)
| VMap (key elem : ty) (entries : option (list (val * val)))
| VSlice (elem : ty) (elems : option (list val))
| VStruct (name : string) (fields : list field) (vals : list val).

(** [v.Type()] *)
Definition typeOf (v : val) : ty :=
  match v with
  | VBool _ => TBool | VInt _ => TInt | VFloat64 _ => TFloat64 | VStr _ => TString
  | VIface n ms _ => TIface n ms
  | VPtr t _ => TPtr t
  | VMap k e _ => TMap k e
  | VSlice e _ => TSlice e
  | VStruct n fs _ => TStruct n fs
  end.

(** [reflect.ValueOf(v.Interface())]: an interface value is unwrapped to
    its dynamic value ([None] for the untyped nil, an invalid [Value]). *)
Definition unwrapIface (v : val) : option val :=
  match v with
  | VIface _ _ d => d
  | _ => Some v
  end.

(** The type [%T] prints for [v.Interface()] ([None] prints [<nil>]). *)
Definition dynTypeOf (v : val) : option ty := option_map typeOf (unwrapIface v).

(** [reflect.Zero(t)] / [reflect.New(t).Elem()] *)
Fixpoint zero (t : ty) : val :=
  match t with
  | TBool => VBool false
  | TInt => VInt 0
  | TFloat64 => VFloat64 0
  | TString => VStr ""
  | TIface n ms => VIface n ms None
  | TPtr e => VPtr e None
  | TMap k e => VMap k e None
  | TSlice e => VSlice e None
  | TStruct n fs =>
      VStruct n fs ((fix go (l : list field) := match l with
                      | [] => []
                      | (_, _, _, ft) :: r => zero ft :: go r end) fs)
  end.

(** ** JSON *)

Inductive json : Type :=
| JNull
| JBool (b : bool)
| JNum (z : Z)
| JStr (s : string)
| JArr (xs : list json)
| JObj (ps : list (string * json)).

(** ** Errors and outcomes *)

(** One constructor per [fmt.Errorf] of the source (its arguments kept),
    plus the errors of the collaborators. *)
Inductive err : Type :=
(* marshal.go *)
| EStringifyKey (key : val) (keyType : option ty)
    (* "unable to stringify map key '%#+v' (%T)" *)
| EMapKey (keyType : option ty) (inner : err)
    (* "unable to stringify map key of type %T: %w" *)
| EMapValue (key : string) (inner : err)
    (* "unable to serialize value of map-entry with key '%s': %w" *)
| ETypeID (dynType : option ty) (inner : err)
    (* "unable to get TypeID of %T: %w" *)
| EField (index : nat) (fieldName : string) (structType : ty) (inner : err)
    (* "unable to serialize data within field #%d:%s of structure %T: %w" *)
(* unmarshal.go *)
| EUnstringifyKey (keyType : option ty) (s : string)
    (* "unable to unstringify map key (%T) value '%s'" *)
| EKey (s : string) (inner : err)
    (* "unable to unstringify key value '%s': %w" *)
| EEntry (value : json) (key : string) (inner : err)
    (* "unable to unmarshal JSON '%s' of entry with key '%s': %w" *)
| ENotPointer (dstType : option ty)
    (* "expected a pointer destination, but got %T instead" *)
| EStructField (value : json) (key : string) (inner : err)
    (* "unable to unmarshal JSON '%s' of field '%s': %w" *)
| EExpectedOne (n : nat)
    (* "expected exactly one value, but got %d" *)
| ENewByTypeID (typeID : string) (inner : err)
    (* "unable to construct an instance of value for TypeID '%s': %w" *)
| EUnmarshal (inner : err)
    (* "unable to unmarshal: %w" *)
| EAssign (outType : ty)
    (* "internal error: do not know how to assign %T to %s"; the %T operand
       is a reflect.Value, so the message reads "reflect.Value" there *)
(* collaborators *)
| EResolver (msg : string)
| EJSONUnsupportedType (t : ty)          (* encoding/json: UnsupportedTypeError *)
| EJSONUnmarshalType (value : json) (t : ty)  (* encoding/json: UnmarshalTypeError *)
| EJSONNumber (value : json) (t : ty).   (* encoding/json: number out of range *)

Inductive res (A : Type) : Type :=
| Ok (a : A)
| Err (e : err)
| Panic (msg : string).
Arguments Ok {A} a.
Arguments Err {A} e.
Arguments Panic {A} msg.

Definition bind {A B} (m : res A) (f : A -> res B) : res B :=
  match m with
  | Ok a => f a
  | Err e => Err e
  | Panic s => Panic s
  end.

(** [if err != nil { return fmt.Errorf("...: %w", err) }] *)
Definition wrap {A} (w : err -> err) (m : res A) : res A :=
  match m with
  | Err e => Err (w e)
  | _ => m
  end.

Notation "x <- m ;; k" := (bind m (fun x => k)) (at level 61, m at next level, right associativity).

(** ** The type resolver ([TypeIDOfer] and [NewByTypeIDer]) *)

(** [NewByTypeID] returns an [any]: [None] is the untyped nil. *)
Record Resolver := {
  TypeIDOf : val -> res string;
  NewByTypeID : string -> res (option val)
}.

(** ** Bytes of a JSON value, as encoding/json writes them *)

Definition digit (n : Z) : ascii := ascii_of_N (Z.to_N (48 + n)).

Fixpoint zDigits (fuel : nat) (n : Z) (acc : string) : string :=
  match fuel with
  | O => acc
  | S f => let acc' := String (digit (n mod 10)) acc in
           if Z.ltb n 10 then acc' else zDigits f (n / 10) acc'
  end.

(** [strconv.Itoa] (the fuel, the bit length, bounds the digit count). *)
Definition itoa (z : Z) : string :=
  let ds := zDigits (S (Pos.to_nat (Pos.size (Z.to_pos (Z.abs z + 1))))) (Z.abs z) "" in
  if Z.ltb z 0 then String "-" ds else ds.

Definition hexDigit (n : nat) : ascii :=
  if Nat.ltb n 10 then ascii_of_nat (48 + n) else ascii_of_nat (87 + n).

(** encoding/json's [appendString] with HTML escaping (the input is taken
    to be valid UTF-8: its coercion of invalid bytes is not modelled). *)
Fixpoint escape (s : string) : string :=
  match s with
  | EmptyString => ""
  | String c r =>
      let n := nat_of_ascii c in
      let e :=
        if Nat.eqb n 34 then String "\" (String c "") else
        if Nat.eqb n 92 then "\\" else
        if Nat.eqb n 8 then "\b" else
        if Nat.eqb n 12 then "\f" else
        if Nat.eqb n 10 then "\n" else
        if Nat.eqb n 13 then "\r" else
        if Nat.eqb n 9 then "\t" else
        if Nat.ltb n 32 || Nat.eqb n 60 || Nat.eqb n 62 || Nat.eqb n 38
        then String "\" (String "u" (String "0" (String "0"
               (String (hexDigit (n / 16)) (String (hexDigit (n mod 16)) "")))))
        else String c "" in
      e ++ escape r
  end.

Definition dquote : ascii := ascii_of_nat 34.

Definition quote (s : string) : string := String dquote (s ++ String dquote "").

(** The compact text encoding/json produces for a JSON value. *)
Fixpoint render (j : json) : string :=
  match j with
  | JNull => "null"
  | JBool true => "true"
  | JBool false => "false"
  | JNum z => itoa z
  | JStr s => quote (escape s)
  | JArr xs =>
      "[" ++ (fix go (l : list json) (first : bool) : string :=
                match l with
                | [] => "]"
                | x :: r => (if first then "" else ",") ++ render x ++ go r false
                end) xs true
  | JObj ps =>
      "{" ++ (fix go (l : list (string * json)) (first : bool) : string :=
                match l with
                | [] => "}"
                | (k, x) :: r =>
                    (if first then "" else ",") ++ quote (escape k) ++ ":" ++
                    render x ++ go r false
                end) ps true
  end.

(** Standard base64 with padding ([base64.StdEncoding]), which encoding/json
    uses for a [[]byte]. *)
Definition b64char (n : Z) : ascii :=
  if Z.ltb n 26 then ascii_of_N (Z.to_N (65 + n)) else
  if Z.ltb n 52 then ascii_of_N (Z.to_N (71 + n)) else
  if Z.ltb n 62 then ascii_of_N (Z.to_N (n - 4)) else
  if Z.eqb n 62 then "+"%char else "/"%char.

Definition sextet (n : Z) (k : Z) : ascii := b64char (Z.land (Z.shiftr n k) 63).

Fixpoint b64 (l : list Z) : string :=
  match l with
  | a :: b :: c :: r =>
      let n := Z.lor (Z.shiftl a 16) (Z.lor (Z.shiftl b 8) c) in
      String (sextet n 18) (String (sextet n 12) (String (sextet n 6) (String (sextet n 0) (b64 r))))
  | [a; b] =>
      let n := Z.lor (Z.shiftl a 16) (Z.shiftl b 8) in
      String (sextet n 18) (String (sextet n 12) (String (sextet n 6) "="))
  | [a] =>
      let n := Z.shiftl a 16 in
      String (sextet n 18) (String (sextet n 12) "==")
  | [] => ""
  end.

Definition base64 (s : string) : string :=
  b64 (map (fun c => Z.of_N (N_of_ascii c)) (list_ascii_of_string s)).

(** ** Struct tags *)

(** [strings.Split(tag, ",")[0]] *)
Fixpoint firstWord (s : string) : string :=
  match s with
  | EmptyString => ""
  | String c r => if Ascii.eqb c ","%char then "" else String c (firstWord r)
  end.

(** [strings.Split(tag, ",")[1:]] *)
Fixpoint splitComma (s : string) (cur : string) : list string :=
  match s with
  | EmptyString => [cur]
  | String c r => if Ascii.eqb c ","%char then cur :: splitComma r "" else splitComma r (cur ++ String c "")
  end.

Definition tagOptions (tag : string) : list string := tl (splitComma tag "").

(** The wire name both traversals compute: the first word of the tag,
    or the field's name when that word is empty. *)
Definition jsonFieldName (f : field) : string :=
  let w := firstWord (fTag f) in
  if Nat.ltb 0 (String.length w) then w else fName f.

Definition isIface (t : ty) : bool := kind_eqb (kindOf t) KInterface.

(** ** Sorting keys, as encoding/json does for a map *)

Fixpoint insertByKey {A} (p : string * A) (l : list (string * A)) : list (string * A) :=
  match l with
  | [] => [p]
  | q :: r => if String.leb (fst p) (fst q) then p :: q :: r else q :: insertByKey p r
  end.

Fixpoint sortByKey {A} (l : list (string * A)) : list (string * A) :=
  match l with
  | [] => []
  | p :: r => insertByKey p (sortByKey r)
  end.

(** [m[k] = x] on a Go map with string keys. *)
Fixpoint setKey {A} (l : list (string * A)) (k : string) (x : A) : list (string * A) :=
  match l with
  | [] => [(k, x)]
  | (k', y) :: r => if String.eqb k k' then (k, x) :: r else (k', y) :: setKey r k x
  end.

(** ** encoding/json's Marshal (the delegate of the traversal)

    The parts of encoding/json the traversal delegates to: scalars, and
    slices with everything inside them.  Struct fields follow encoding/json's
    rules: exported, not tagged ["-"], named by the tag's first word, the
    [omitempty] option, and among fields sharing a name the one tagged field
    (or none).  Not modelled: the [string] tag option, embedded fields,
    and the validity check of tag names. *)

Definition stdFieldTagged (f : field) : bool := Nat.ltb 0 (String.length (firstWord (fTag f))).

Definition stdFieldVisible (f : field) : bool :=
  String.eqb (fPkgPath f) "" && negb (String.eqb (fTag f) "-").

(** Whether field [f] survives encoding/json's [dominantField] among [fs]. *)
Definition stdFieldDominant (fs : list field) (f : field) : bool :=
  let same := filter (fun g => stdFieldVisible g && String.eqb (jsonFieldName g) (jsonFieldName f)) fs in
  Nat.eqb (List.length same) 1 ||
  (stdFieldTagged f && Nat.eqb (List.length (filter stdFieldTagged same)) 1).

Definition stdSelected (fs : list field) (f : field) : bool :=
  stdFieldVisible f && stdFieldDominant fs f.

Definition hasOption (tag o : string) : bool := existsb (String.eqb o) (tagOptions tag).

(** [isEmptyValue] *)
Definition isEmptyValue (v : val) : bool :=
  match v with
  | VBool b => negb b
  | VInt z | VFloat64 z => Z.eqb z 0
  | VStr s => String.eqb s ""
  | VIface _ _ None | VPtr _ None => true
  | VMap _ _ None | VSlice _ None => true
  | VMap _ _ (Some l) => Nat.eqb (List.length l) 0
  | VSlice _ (Some l) => Nat.eqb (List.length l) 0
  | _ => false
  end.

(** The text of a map key ([resolveKeyName]); [None] when the key kind is
    not one encoding/json accepts. *)
Definition stdKeyName (k : val) : option string :=
  match k with
  | VStr s => Some s
  | VInt z => Some (itoa z)
  | _ => None
  end.

Definition stdKeyKindOk (k : ty) : bool :=
  match kindOf k with KString | KInt => true | _ => false end.

Fixpoint stdMarshal (v : val) : res json :=
  match v with
  | VBool b => Ok (JBool b)
  | VInt z => Ok (JNum z)
  | VFloat64 z => Ok (JNum z)
  | VStr s => Ok (JStr s)
  | VIface _ _ None => Ok JNull
  | VIface _ _ (Some x) => stdMarshal x
  | VPtr _ None => Ok JNull
  | VPtr _ (Some x) => stdMarshal x
  | VMap k e m =>
      if negb (stdKeyKindOk k) then Err (EJSONUnsupportedType (TMap k e)) else
      match m with
      | None => Ok JNull
      | Some es =>
          ps <- (fix go (l : list (val * val)) : res (list (string * json)) :=
                   match l with
                   | [] => Ok []
                   | (kv, x) :: r =>
                       j <- stdMarshal x ;;
                       ps <- go r ;;
                       match stdKeyName kv with
                       | Some n => Ok ((n, j) :: ps)
                       | None => Err (EJSONUnsupportedType (TMap k e))
                       end
                   end) es ;;
          Ok (JObj (sortByKey ps))
      end
  | VSlice _ None => Ok JNull
  | VSlice _ (Some xs) =>
      js <- (fix go (l : list val) : res (list json) :=
               match l with
               | [] => Ok []
               | x :: r => j <- stdMarshal x ;; js <- go r ;; Ok (j :: js)
               end) xs ;;
      Ok (JArr js)
  | VStruct n fs vs =>
      ps <- (fix go (l : list field) (xs : list val) {struct xs} : res (list (string * json)) :=
               match l, xs with
               | f :: l', x :: xs' =>
                   if stdSelected fs f && negb (hasOption (fTag f) "omitempty" && isEmptyValue x)
                   then j <- stdMarshal x ;; ps <- go l' xs' ;; Ok ((jsonFieldName f, j) :: ps)
                   else go l' xs'
               | _, _ => Ok []
               end) fs vs ;;
      Ok (JObj ps)
  end.

(** ** MarshalWithTypeIDs *)

(** The values stored in [marshaledFields] (a [map[string]any]):
    [json.RawMessage(b)], a plain [[]byte] [b], or the single-entry
    [map[TypeID]json.RawMessage{typeID: b}]. *)
Inductive anyField : Type :=
| RawMessage (b : json)
| PlainBytes (b : json)
| TypeTagged (typeID : string) (b : json).

(** [json.Marshal] of one such value. *)
Definition marshalAnyField (x : anyField) : json :=
  match x with
  | RawMessage b => b
  | PlainBytes b => JStr (base64 (render b))
  | TypeTagged id b => JObj [(id, b)]
  end.

(** [json.Marshal(marshaledFields)]: an object with the keys sorted. *)
Definition marshalFields (fs : list (string * anyField)) : json :=
  JObj (map (fun p => (fst p, marshalAnyField (snd p))) (sortByKey fs)).

(** [stringifyMapKey] *)
Definition stringifyMapKey (mapKey : val) : res string :=
  match mapKey with
  | VStr s => Ok s
  | _ => Err (EStringifyKey mapKey (dynTypeOf mapKey))
  end.

Section Marshal.
Variable typeIDOfer : Resolver.

(** The loop of the map case, over the entries of a [map[_]e], given the
    recursive [marshal]. *)
Definition marshalMapEntries (marshal : val -> res json) (e : ty)
    : list (val * val) -> list (string * anyField) -> res (list (string * anyField)) :=
  fix go (l : list (val * val)) (acc : list (string * anyField)) :=
    match l with
    | [] => Ok acc
    | (key, value) :: rest =>
        jsonFieldName <- wrap (EMapKey (dynTypeOf key)) (stringifyMapKey key) ;;
        b <- wrap (EMapValue jsonFieldName) (marshal value) ;;
        (* the value type is not an interface, or the untyped nil:
           [marshaledFields[jsonFieldName] = b] *)
        match isIface e, unwrapIface value with
        | true, Some x =>
            typeID <- wrap (ETypeID (dynTypeOf value)) (TypeIDOf typeIDOfer x) ;;
            go rest (setKey acc jsonFieldName (TypeTagged typeID b))
        | _, _ => go rest (setKey acc jsonFieldName (PlainBytes b))
        end
    end.

(** The loop of the struct case, over the fields [l] (from index [i]) and
    their values [xs] of a struct of type [TStruct n fs]. *)
Definition marshalStructFields (marshal : val -> res json) (n : string) (fs : list field)
    : nat -> list field -> list val -> list (string * anyField) -> res (list (string * anyField)) :=
  fix go (i : nat) (l : list field) (xs : list val) (acc : list (string * anyField)) {struct xs} :=
    match l, xs with
    | fT :: l', fV :: xs' =>
        if negb (String.eqb (fPkgPath fT) "") then go (S i) l' xs' acc      (* unexported *)
        else if String.eqb (fTag fT) "-" then go (S i) l' xs' acc           (* skip *)
        else
          let name := jsonFieldName fT in
          b <- wrap (EField i (fName fT) (TStruct n fs)) (marshal fV) ;;
          (* not an interface, or the untyped nil: [json.RawMessage(b)] *)
          match isIface (fType fT), unwrapIface fV with
          | true, Some x =>
              typeID <- wrap (ETypeID (dynTypeOf fV)) (TypeIDOf typeIDOfer x) ;;
              go (S i) l' xs' (setKey acc name (TypeTagged typeID b))
          | _, _ => go (S i) l' xs' (setKey acc name (RawMessage b))
          end
    | _, _ => Ok acc
    end.

Fixpoint marshal (v : val) : res json :=
  match v with
  | VIface _ _ d =>
      match d with
      | None => Ok JNull                       (* untyped nil behind the interface *)
      | Some x => marshal x
      end
  | VPtr _ p =>
      match p with
      | None => Ok JNull                       (* nil pointer *)
      | Some x => marshal x
      end
  | VMap k e m =>
      match m with
      | None => Ok (marshalFields [])          (* ranging over a nil map: no entries *)
      | Some entries =>
          marshaledFields <- marshalMapEntries marshal e entries [] ;;
          Ok (marshalFields marshaledFields)
      end
  | VSlice _ _ => stdMarshal v
  | VStruct n fs vs =>
      marshaledFields <- marshalStructFields marshal n fs 0 fs vs [] ;;
      Ok (marshalFields marshaledFields)
  | _ => stdMarshal v
  end.

End Marshal.

Definition zeroValueInterface : string := "reflect: call of reflect.Value.Interface on zero Value".

(** [MarshalWithTypeIDs(obj, typeIDOfer)]: [obj] is an [any], so an
    interface value arrives as its dynamic value; for [obj = nil],
    [reflect.ValueOf(nil)] is the invalid [Value], whose kind reaches the
    default case, where [v.Interface()] panics. *)
Definition MarshalWithTypeIDs (obj : option val) (typeIDOfer : Resolver) : res json :=
  match obj with
  | None => Panic zeroValueInterface
  | Some v => marshal typeIDOfer v
  end.

(** ** encoding/json's Unmarshal (the delegate of the decoder)

    [stdUnmarshal j t cur] decodes [j] into a slot of type [t] holding
    [cur] and returns the slot's new value.  As encoding/json: [null] sets
    pointers, interfaces, maps and slices to nil and leaves other slots
    alone; a pointer is followed (allocated when nil); a number goes into an
    [any] as a [float64], an object as a [map[string]any], an array as an
    [[]any]; map entries are added to the existing map; struct members are
    matched to fields by exact name first, then ignoring ASCII case, and
    unknown members are skipped.  Differences, none of which the traversal
    depends on: on a type mismatch encoding/json goes on with the other
    values and returns the first mismatch at the end, the model returns it
    at once; a JSON array is decoded into fresh elements (encoding/json
    reuses the slice's existing elements); decoding into an interface that
    already holds a non-nil pointer is not modelled (the model's slots
    reached from a slice are fresh). *)

Definition anyName : string := "interface {}".
Definition anyTy : ty := TIface anyName [].

(** Go's [==] on the map keys the decoders create (strings and ints). *)
Definition keyEqb (a b : val) : bool :=
  match a, b with
  | VStr x, VStr y => String.eqb x y
  | VInt x, VInt y => Z.eqb x y
  | VBool x, VBool y => Bool.eqb x y
  | _, _ => false
  end.

(** [m.SetMapIndex(k, x)] *)
Fixpoint mapSet (es : list (val * val)) (k x : val) : list (val * val) :=
  match es with
  | [] => [(k, x)]
  | (k', y) :: r => if keyEqb k k' then (k', x) :: r else (k', y) :: mapSet r k x
  end.

(** The value encoding/json stores in an empty interface. *)
Fixpoint anyOfJSON (j : json) : option val :=
  match j with
  | JNull => None
  | JBool b => Some (VBool b)
  | JNum z => Some (VFloat64 z)
  | JStr s => Some (VStr s)
  | JArr xs =>
      Some (VSlice anyTy (Some (map (fun x => VIface anyName [] (anyOfJSON x)) xs)))
  | JObj ps =>
      Some (VMap TString anyTy (Some
        ((fix go (l : list (string * json)) (acc : list (val * val)) :=
            match l with
            | [] => acc
            | (k, x) :: r => go r (mapSet acc (VStr k) (VIface anyName [] (anyOfJSON x)))
            end) ps [])))
  end.

Definition int64Min : Z := (- 2 ^ 63)%Z.
Definition int64Max : Z := (2 ^ 63 - 1)%Z.

Definition digitOf (c : ascii) : option Z :=
  let n := Z.of_N (N_of_ascii c) in
  if Z.leb 48 n && Z.leb n 57 then Some (n - 48)%Z else None.

Fixpoint parseDigits (s : string) (acc : Z) : option Z :=
  match s with
  | EmptyString => Some acc
  | String c r => match digitOf c with Some d => parseDigits r (acc * 10 + d)%Z | None => None end
  end.

(** [strconv.ParseInt(s, 10, 64)] *)
Definition parseInt (s : string) : option Z :=
  let z :=
    match s with
    | String "-" (String c r) => option_map Z.opp (parseDigits (String c r) 0)
    | String "+" (String c r) => parseDigits (String c r) 0
    | String _ _ => parseDigits s 0
    | EmptyString => None
    end in
  match z with
  | Some n => if Z.leb int64Min n && Z.leb n int64Max then Some n else None
  | None => None
  end.

Fixpoint lowerASCII (s : string) : string :=
  match s with
  | EmptyString => ""
  | String c r =>
      let n := nat_of_ascii c in
      String (if Nat.leb 65 n && Nat.leb n 90 then ascii_of_nat (n + 32) else c) (lowerASCII r)
  end.

(** The field encoding/json decodes member [key] into. *)
Definition stdFieldIndex (fs : list field) (key : string) : option nat :=
  let sel := filter (fun p => stdSelected fs (snd p)) (combine (seq 0 (List.length fs)) fs) in
  match find (fun p => String.eqb (jsonFieldName (snd p)) key) sel with
  | Some p => Some (fst p)
  | None =>
      match find (fun p => String.eqb (lowerASCII (jsonFieldName (snd p))) (lowerASCII key)) sel with
      | Some p => Some (fst p)
      | None => None
      end
  end.

(** Applies [k] to the [i]-th field and the [i]-th value of a struct and
    puts its result in place of that value. *)
Definition updateField (k : field -> val -> res val)
    : nat -> list field -> list val -> res (list val) :=
  fix go (i : nat) (fs : list field) (vs : list val) {struct fs} : res (list val) :=
  match fs, vs with
  | f :: fs', x :: vs' =>
      match i with
      | O => x' <- k f x ;; Ok (x' :: vs')
      | S i' => r <- go i' fs' vs' ;; Ok (x :: r)
      end
  | _, _ => Panic "reflect: Field index out of range"
  end.

Fixpoint stdUnmarshal (j : json) : ty -> val -> res val :=
  fix go (t : ty) (cur : val) {struct t} : res val :=
  match t with
  | TBool => match j with JNull => Ok cur | JBool b => Ok (VBool b) | _ => Err (EJSONUnmarshalType j t) end
  | TInt =>
      match j with
      | JNull => Ok cur
      | JNum z => if Z.leb int64Min z && Z.leb z int64Max then Ok (VInt z) else Err (EJSONNumber j t)
      | _ => Err (EJSONUnmarshalType j t)
      end
  | TFloat64 => match j with JNull => Ok cur | JNum z => Ok (VFloat64 z) | _ => Err (EJSONUnmarshalType j t) end
  | TString => match j with JNull => Ok cur | JStr s => Ok (VStr s) | _ => Err (EJSONUnmarshalType j t) end
  | TIface n ms =>
      match j with
      | JNull => Ok (VIface n ms None)
      | _ => match ms with
             | [] => Ok (VIface n ms (anyOfJSON j))
             | _ => Err (EJSONUnmarshalType j t)
             end
      end
  | TPtr u =>
      match j with
      | JNull => Ok (VPtr u None)
      | _ =>
          let x := match cur with VPtr _ (Some x) => x | _ => zero u end in
          x' <- go u x ;; Ok (VPtr u (Some x'))
      end
  | TMap k e =>
      match j with
      | JNull => Ok (VMap k e None)
      | JObj ps =>
          if negb (stdKeyKindOk k) then Err (EJSONUnmarshalType j t) else
          let es0 := match cur with VMap _ _ (Some es) => es | _ => [] end in
          es <- (fix members (l : list (string * json)) (es : list (val * val)) :=
                   match l with
                   | [] => Ok es
                   | (key, x) :: r =>
                       x' <- stdUnmarshal x e (zero e) ;;
                       kv <- match kindOf k with
                             | KString => Ok (VStr key)
                             | _ => match parseInt key with
                                    | Some z => Ok (VInt z)
                                    | None => Err (EJSONUnmarshalType (JStr key) k)
                                    end
                             end ;;
                       members r (mapSet es kv x')
                   end) ps es0 ;;
          Ok (VMap k e (Some es))
      | _ => Err (EJSONUnmarshalType j t)
      end
  | TSlice e =>
      match j with
      | JNull => Ok (VSlice e None)
      | JArr xs =>
          ys <- (fix elems (l : list json) :=
                   match l with
                   | [] => Ok []
                   | x :: r => y <- stdUnmarshal x e (zero e) ;; ys <- elems r ;; Ok (y :: ys)
                   end) xs ;;
          Ok (VSlice e (Some ys))
      | _ => Err (EJSONUnmarshalType j t)
      end
  | TStruct n fs =>
      match j with
      | JNull => Ok cur
      | JObj ps =>
          let vs0 := match cur with VStruct _ _ vs => vs | _ => map (fun _ => VBool false) fs end in
          vs <- (fix members (l : list (string * json)) (vs : list val) :=
                   match l with
                   | [] => Ok vs
                   | (key, x) :: r =>
                       match stdFieldIndex fs key with
                       | None => members r vs
                       | Some i =>
                           vs' <- updateField (fun f fv => stdUnmarshal x (fType f) fv) i fs vs ;;
                           members r vs'
                       end
                   end) ps vs0 ;;
          Ok (VStruct n fs vs)
      | _ => Err (EJSONUnmarshalType j t)
      end
  end.

(** ** UnmarshalWithTypeIDs *)

(** [unstringifyMapKey(mapKey, s)] *)
Definition unstringifyMapKey (mapKey : val) (s : string) : res val :=
  match mapKey with
  | VStr _ => Ok (VStr s)                      (* mapKey.SetString(s) *)
  | _ => Err (EUnstringifyKey (dynTypeOf mapKey) s)
  end.

(** gjson's [Result.Map()]: the members of an object, one per key; a
    member whose key is already in the map is skipped, so the first member
    with a key gives its value; empty for anything else (an array, whose
    [Raw] does not start with a brace, included). *)
Definition gjsonMap (value : json) : list (string * json) :=
  match value with
  | JObj ps =>
      fold_left (fun acc p =>
        if existsb (fun q => String.eqb (fst q) (fst p)) acc then acc
        else (acc ++ [p])%list) ps []
  | _ => []
  end.

(** [for typeID, valueUnparsed = range m {}] over a one-entry [Result.Map()]:
    the key and the value of the object's first member, which that entry
    holds (all its members have that key). *)
Definition withFirstMember {A} (value : json) (dflt : A) (k : string -> json -> A) : A :=
  match value with
  | JObj ((key, x) :: _) => k key x
  | _ => dflt
  end.

(** gjson's [ForEach] over the members of an object or the elements of an
    array (whose key is the empty [Result], [Str = ""]); the iterator's error
    stops the walk and is the result. *)
Definition forEachMembers {S} (it : string -> json -> S -> res S)
    : list (string * json) -> S -> res S :=
  fix go (ps : list (string * json)) (st : S) : res S :=
  match ps with
  | [] => Ok st
  | (key, value) :: r => st' <- it key value st ;; go r st'
  end.

Definition forEachElems {S} (it : string -> json -> S -> res S) : list json -> S -> res S :=
  fix go (xs : list json) (st : S) : res S :=
  match xs with
  | [] => Ok st
  | value :: r => st' <- it "" value st ;; go r st'
  end.

(** The [indexMap] of the struct case: wire name to field index, a later
    field replacing an earlier one with the same wire name. *)
Definition buildIndexMap (fs : list field) : list (string * nat) :=
  fst (fold_left (fun acc f =>
         let '(m, i) := acc in
         if String.eqb (fTag f) "-" then (m, S i)             (* requested to skip *)
         else (setKey m (jsonFieldName f) i, S i)) fs ([], 0)).

Fixpoint lookupKey {A} (m : list (string * A)) (k : string) : option A :=
  match m with
  | [] => None
  | (k', x) :: r => if String.eqb k k' then Some x else lookupKey r k
  end.

Definition unaddressable : string := "reflect: reflect.Value.Set using unaddressable value".

Section Unmarshal.
(** The method sets of the program's types, which decide [AssignableTo]. *)
Variable methodSet : ty -> list string.
Variable newByTypeIDer : Resolver.

Definition methodsOf (t : ty) : list string :=
  match t with TIface _ ms => ms | _ => methodSet t end.

(** [t.AssignableTo(u)] *)
Definition AssignableTo (t u : ty) : bool :=
  match u with
  | TIface _ ms => forallb (fun m => existsb (String.eqb m) (methodsOf t)) ms
  | _ => ty_eqb t u
  end.

(** [out.Set(x)] on a slot of type [outType]. *)
Definition setSlot (outType : ty) (x : val) : val :=
  match outType with
  | TIface n ms => VIface n ms (unwrapIface x)
  | _ => x
  end.

(** [unmarshal(obj, v)] for a destination [v] that is not known to be a
    pointer, given [dec], the decoding of [obj] through a pointer: it
    returns the pointer's element type and the new pointee. *)
Definition unmarshalHandle (dec : ty -> option val -> bool -> res val)
    (v : option val) (settable : bool) : res (ty * val) :=
  match v with
  | None => Panic zeroValueInterface          (* v.Interface() on the invalid Value *)
  | Some (VPtr t p) => x <- dec t p settable ;; Ok (t, x)
  | Some w => Err (ENotPointer (dynTypeOf w))
  end.

(** [unmarshalTo(out, outType, value)]: returns the new value of the slot
    [out].  [content j t out] is [unmarshal(j, out.Addr())] (the new value
    of the slot), [wrapped j h] is [unmarshal(j, reflect.ValueOf(h))]. *)
Definition unmarshalTo
    (content : json -> ty -> val -> res val)
    (wrapped : json -> option val -> res (ty * val))
    (out : val) (outType : ty) (value : json) : res val :=
  match kindOf outType with
  | KPointer =>
      match value with
      | JNull => Ok (zero outType)             (* out.Set(reflect.Zero(outType)) *)
      | _ => wrap EUnmarshal (content value outType out)
      end
  | KInterface =>
      match value with
      | JNull => Ok (zero outType)             (* out.Set(reflect.New(outType).Elem()) *)
      | _ =>
          let m := gjsonMap value in
          if negb (Nat.eqb (List.length m) 1) then Err (EExpectedOne (List.length m)) else
          withFirstMember value (Err (EExpectedOne 0)) (fun typeID valueUnparsed =>
            typedValuePtr <- wrap (ENewByTypeID typeID) (NewByTypeID newByTypeIDer typeID) ;;
            contentOut <- wrap EUnmarshal (wrapped valueUnparsed typedValuePtr) ;;
            let '(t, x) := contentOut in
            (* contentOut.Elem() is x, of type t; contentOut is a *t *)
            if AssignableTo t outType then Ok (setSlot outType x)
            else if AssignableTo (TPtr t) outType then Ok (setSlot outType (VPtr t (Some x)))
            else Err (EAssign outType))
      end
  | _ => wrap EUnmarshal (content value outType out)
  end.

(** The iterator of the map case: one member [key]/[value] into map [m]. *)
Definition mapEntry (content : json -> ty -> val -> res val)
    (wrapped : json -> option val -> res (ty * val))
    (keyType valueType : ty) (key : string) (value : json)
    (m : option (list (val * val))) : res (option (list (val * val))) :=
  keyValue <- wrap (EKey key) (unstringifyMapKey (zero keyType) key) ;;
  valueValue <- wrap (EEntry value key)
                  (unmarshalTo content wrapped (zero valueType) valueType value) ;;
  let es := match m with Some es => es | None => [] end in   (* nil map: MakeMap *)
  Ok (Some (mapSet es keyValue valueValue)).

(** The iterator of the struct case: one member [key]/[value] into the
    field values [vs]. *)
Definition structMember (content : json -> ty -> val -> res val)
    (wrapped : json -> option val -> res (ty * val))
    (fs : list field) (key : string) (value : json) (vs : list val) : res (list val) :=
  match lookupKey (buildIndexMap fs) key with
  | None => Ok vs                                (* no such field *)
  | Some fieldIndex =>
      updateField (fun fT fV =>
        let '(_, pkgPath, _, fieldType) := fT in
        if negb (String.eqb pkgPath "") then Ok fV             (* unexported *)
        else wrap (EStructField value key) (unmarshalTo content wrapped fV fieldType value))
        fieldIndex fs vs
  end.

(** [unmarshal(obj, v)] once [v] is known to be a pointer [*t]: [p] is its
    pointee ([None] when [v] is nil) and [settable] tells whether [v.Set]
    may be called on [v]; the result is the new pointee.  The recursion
    is on [obj] and, for the steps that keep [obj] (a pointer to a pointer;
    gjson's [ForEach] on a value that is neither an object nor an array,
    which calls the iterator once with an empty key and the value itself),
    on the type [t]. *)
Fixpoint decode (obj : json) {struct obj} : ty -> option val -> bool -> res val :=
  fix go (t : ty) (p : option val) (settable : bool) {struct t} : res val :=
  x <- match p with
       | Some x => Ok x
       | None =>                                 (* v.Set(reflect.New(v.Type().Elem())) *)
           if settable then Ok (zero t) else Panic unaddressable
       end ;;
  (* [unmarshal(value, out.Addr())] on a member value, and
     [unmarshal(valueUnparsed, reflect.ValueOf(typedValuePtr))] *)
  let content := fun (j : json) (t' : ty) (out : val) => decode j t' (Some out) false in
  let wrapped := fun (j : json) (h : option val) => unmarshalHandle (decode j) h false in
  (* the same, when the member value is [obj] itself *)
  let contentSame := fun (_ : json) (t' : ty) (out : val) => go t' (Some out) false in
  match t with
  | TIface _ _ =>
      (* unmarshal(obj, v.Elem()): v.Elem() is of kind Interface *)
      Err (ENotPointer (dynTypeOf x))
  | TPtr u =>
      let q := match x with VPtr _ q => q | _ => None end in
      y <- go u q true ;; Ok (VPtr u (Some y))
  | TMap kt et =>
      (* delete all entries from the current map *)
      let m0 := match x with VMap _ _ (Some _) => Some [] | _ => None end in
      m <- match obj with
           | JObj ps => forEachMembers (mapEntry content wrapped kt et) ps m0
           | JArr xs => forEachElems (mapEntry content wrapped kt et) xs m0
           | _ => mapEntry contentSame wrapped kt et "" obj m0
           end ;;
      Ok (VMap kt et m)
  | TSlice _ => stdUnmarshal obj t x                (* json.Unmarshal(obj.Raw, v.Interface()) *)
  | TStruct n fs =>
      let vs := match x with VStruct _ _ vs => vs | _ => match zero t with VStruct _ _ vs => vs | _ => [] end end in
      vs' <- match obj with
             | JObj ps => forEachMembers (structMember content wrapped fs) ps vs
             | JArr xs => forEachElems (structMember content wrapped fs) xs vs
             | _ => structMember contentSame wrapped fs "" obj vs
             end ;;
      Ok (VStruct n fs vs')
  | _ => stdUnmarshal obj t x                       (* json.Unmarshal(obj.Raw, v.Interface()) *)
  end.

(** [unmarshal(obj, v)]: the element type and the new pointee of [v]. *)
Definition unmarshal (obj : json) (v : option val) (settable : bool) : res (ty * val) :=
  unmarshalHandle (decode obj) v settable.

(** The two continuations [decode] hands to [unmarshalTo]. *)
Definition decodeContent (j : json) (t' : ty) (out : val) : res val := decode j t' (Some out) false.
Definition decodeWrapped (j : json) (h : option val) : res (ty * val) := unmarshal j h false.

End Unmarshal.

(** [UnmarshalWithTypeIDs(b, dst, newByTypeIDer)]: [b] as the JSON value
    gjson parses, [dst] an [any] ([None]: nil) reached through
    [reflect.ValueOf], so not settable.  The result is the destination
    pointer as the caller sees it afterwards. *)
Definition UnmarshalWithTypeIDs (methodSet : ty -> list string)
    (b : json) (dst : option val) (newByTypeIDer : Resolver) : res val :=
  r <- unmarshal methodSet newByTypeIDer b dst false ;;
  let '(t, x) := r in Ok (VPtr t (Some x)).

(** ** A type registry, and the README's example

    A resolver built from a list of [(TypeID, type)] pairs, as
    [polyjson.TypeRegistry()] is: [TypeIDOf] looks the dynamic type up,
    [NewByTypeID] returns [reflect.New(t).Interface()], a pointer to a zero
    [t]. *)
Definition registry (entries : list (string * ty)) : Resolver := {|
  TypeIDOf := fun x =>
    match find (fun e => ty_eqb (snd e) (typeOf x)) entries with
    | Some e => Ok (fst e)
    | None => Err (EResolver "unknown type")
    end;
  NewByTypeID := fun id =>
    match find (fun e => String.eqb (fst e) id) entries with
    | Some e => Ok (Some (VPtr (snd e) (Some (zero (snd e)))))
    | None => Err (EResolver "unknown type ID")
    end |}.

(** A program whose types declare no methods. *)
Definition noMethods (_ : ty) : list string := [].

Definition myFancyStruct : ty := TStruct "polyjson_test.myFancyStruct" [("A", "", "", TInt)].
Definition myFancyStructID : string := "./polyjson_test.myFancyStruct".
Definition readmeRegistry : Resolver := registry [(myFancyStructID, myFancyStruct)].
Definition mapStringAny : ty := TMap TString anyTy.

(** [map[string]any{"B": myFancyStruct{A: 1}}] *)
Definition readmeValue : val :=
  VMap TString anyTy (Some [(VStr "B", VIface anyName [] (Some
    (VStruct "polyjson_test.myFancyStruct" [("A", "", "", TInt)] [VInt 1])))]).

(** [{"B":{"./polyjson_test.myFancyStruct":{"A":1}}}] *)
Definition readmeJSON : json :=
  JObj [("B", JObj [(myFancyStructID, JObj [("A", JNum 1)])])].

(** ** Further example values *)


(** [type S struct { A int `json:"a,omitempty"` }] and
    [Holder{L: []S{{}}}] with [type Holder struct { L []S }]. *)
Definition omitS : ty := TStruct "S" [("A", "", "a,omitempty", TInt)].
Definition sliceHolderFields : list field := [("L", "", "", TSlice omitS)].
Definition sliceHolder : val :=
  VStruct "Holder" sliceHolderFields [VSlice omitS (Some [VStruct "S" [("A", "", "a,omitempty", TInt)] [VInt 0]])].

(** [type Holder struct { X any `json:"x"` }] *)
Definition ifaceHolderFields : list field := [("X", "", "x", anyTy)].

(** [{"a":1,"b":2}] *)
Definition twoKeys : json := JObj [("a", JNum 1); ("b", JNum 2)].

(** Resolvers whose [NewByTypeID] answers an untyped nil, and a value that
    is not a pointer. *)
Definition nilNewByTypeID : Resolver := {|
  TypeIDOf := fun _ => Ok "T";
  NewByTypeID := fun _ => Ok None |}.
Definition valueNewByTypeID : Resolver := {|
  TypeIDOf := fun _ => Ok "T";
  NewByTypeID := fun _ => Ok (Some (VInt 0)) |}.

(** Values at the edge of the round-trip domain: an empty non-nil map, a
    nil pointer, and a struct whose field is a [*any]. *)
Definition emptyMapStringAny : val := VMap TString anyTy (Some []).
Definition fancyValue : val := VStruct "polyjson_test.myFancyStruct" [("A", "", "", TInt)] [VInt 1].
Definition ptrAnyFields : list field := [("F", "", "", TPtr anyTy)].
Definition ptrAnyHolder : ty := TStruct "P" ptrAnyFields.
Definition ptrAnyValue : val :=
  VStruct "P" ptrAnyFields [VPtr anyTy (Some (VIface anyName [] (Some fancyValue)))].

(** ** Vocabulary of the properties *)

(** The index of the last field, not tagged ["-"], whose wire name is
    [key]: the field [indexMap[key]] designates. *)
Fixpoint lastMatch (fs : list field) (key : string) : option nat :=
  match fs with
  | [] => None
  | f :: r =>
      match lastMatch r key with
      | Some i => Some (S i)
      | None => if negb (String.eqb (fTag f) "-") && String.eqb (jsonFieldName f) key
                then Some 0 else None
      end
  end.


(** The field values of a struct with the [i]-th one replaced. *)
Fixpoint setNth (vs : list val) (i : nat) (x : val) : list val :=
  match vs, i with
  | [], _ => []
  | _ :: r, O => x :: r
  | y :: r, S i' => y :: setNth r i' x
  end.

(** The keys of a map ([None]: the nil map). *)
Definition mapKeys (m : option (list (val * val))) : list val :=
  match m with Some es => map fst es | None => [] end.


(** Keys in strictly increasing order: the model's representative of a Go
    map (whose entries have no order) is its list of entries by key. *)
Definition strictKeys {A} (kvs : list (string * A)) : Prop :=
  StronglySorted (fun a b => String.leb (fst a) (fst b) = true /\ fst a <> fst b) kvs.

(** [m[k]] on the entries of a map with keys the decoders create. *)
Fixpoint mapIndex (es : list (val * val)) (k : val) : option val :=
  match es with
  | [] => None
  | (k', x) :: r => if keyEqb k k' then Some x else mapIndex r k
  end.



Section RoundTrip.
Variable methodSet : ty -> list string.
Variable r : Resolver.





End RoundTrip.

(** * Properties *)

Example itoa_ex : itoa (-1024) = "-1024" /\ itoa 0 = "0" /\ itoa 99 = "99".
Proof. repeat split; reflexivity. Qed.

Example base64_one : base64 "1" = "MQ==". Proof. reflexivity. Qed.
Example base64_null : base64 "null" = "bnVsbA==". Proof. reflexivity. Qed.

(** The README's example: the encoding is the one its [Output] shows, and
    decoding it into a [map[string]any] gives the map back. *)
Example readme_roundtrip :
  MarshalWithTypeIDs (Some readmeValue) readmeRegistry = Ok readmeJSON /\
  render readmeJSON = "{" ++ quote "B" ++ ":{" ++ quote myFancyStructID ++ ":{" ++ quote "A" ++ ":1}}}" /\
  UnmarshalWithTypeIDs noMethods readmeJSON (Some (VPtr mapStringAny (Some (zero mapStringAny))))
    readmeRegistry = Ok (VPtr mapStringAny (Some readmeValue)).
Proof. repeat split; vm_compute; reflexivity. Qed.

(** ** Lists keyed by strings *)


Lemma lookupKey_setKey {A} (m : list (string * A)) k x key :
  lookupKey (setKey m k x) key = if String.eqb key k then Some x else lookupKey m key.
Proof.
  induction m as [|[k' y] m IH]; simpl.
  - destruct (String.eqb key k); reflexivity.
  - destruct (String.eqb k k') eqn:Ekk'; simpl.
    + apply String.eqb_eq in Ekk'; subst k'.
      destruct (String.eqb key k); reflexivity.
    + rewrite IH. destruct (String.eqb key k) eqn:E1; [|reflexivity].
      apply String.eqb_eq in E1; subst key. rewrite Ekk'. reflexivity.
Qed.

Lemma In_keys_setKey {A} (m : list (string * A)) k x key :
  In key (map fst (setKey m k x)) <-> key = k \/ In key (map fst m).
Proof.
  induction m as [|[k' y] m IH]; simpl.
  - intuition congruence.
  - destruct (String.eqb k k') eqn:E; simpl.
    + apply String.eqb_eq in E; subst k'. intuition congruence.
    + rewrite IH. tauto.
Qed.


Lemma buildIndexMap_fold (fs : list field) (m : list (string * nat)) (k : nat) (key : string) :
  lookupKey (fst (fold_left (fun acc f =>
         let '(m, i) := acc in
         if String.eqb (fTag f) "-" then (m, S i)
         else (setKey m (jsonFieldName f) i, S i)) fs (m, k))) key =
  match lastMatch fs key with Some i => Some (k + i) | None => lookupKey m key end.
Proof.
  revert m k. induction fs as [|f fs IH]; intros m k; simpl; [reflexivity|].
  destruct (String.eqb (fTag f) "-") eqn:Et; rewrite IH;
    destruct (lastMatch fs key) as [i|]; rewrite ?Et; simpl; try (f_equal; lia).
  rewrite lookupKey_setKey, String.eqb_sym.
  destruct (String.eqb (jsonFieldName f) key); [f_equal; lia|reflexivity].
Qed.

(** The struct case's [indexMap[key]] is the last field not tagged ["-"]
    with wire name [key]. *)
Lemma lookupKey_buildIndexMap (fs : list field) (key : string) :
  lookupKey (buildIndexMap fs) key = lastMatch fs key.
Proof.
  unfold buildIndexMap. rewrite buildIndexMap_fold.
  destruct (lastMatch fs key); reflexivity.
Qed.

Lemma lastMatch_nth (fs : list field) (i : nat) (f : field) (key : string) :
  nth_error fs i = Some f -> fTag f <> "-" -> jsonFieldName f = key ->
  (forall j g, i < j -> nth_error fs j = Some g -> fTag g <> "-" -> jsonFieldName g <> key) ->
  lastMatch fs key = Some i.
Proof.
  revert i. induction fs as [|f0 fs IH]; intros i Hi Ht Hn Hlater; [destruct i; discriminate|].
  simpl. destruct i as [|i]; simpl in Hi.
  - injection Hi as <-.
    destruct (lastMatch fs key) as [j|] eqn:Ej.
    + exfalso.
      assert (Hs : forall l j, lastMatch l key = Some j ->
                 exists g, nth_error l j = Some g /\ fTag g <> "-" /\ jsonFieldName g = key).
      { induction l as [|g l IHl]; intros j' H; simpl in H; [discriminate|].
        destruct (lastMatch l key) as [j''|] eqn:E'.
        - injection H as <-. destruct (IHl j'' eq_refl) as (g' & ? & ? & ?). exists g'. auto.
        - destruct (negb (String.eqb (fTag g) "-") && String.eqb (jsonFieldName g) key) eqn:Eg;
            [|discriminate].
          injection H as <-. apply andb_prop in Eg as [Eg1 Eg2].
          apply negb_true_iff, String.eqb_neq in Eg1. apply String.eqb_eq in Eg2.
          exists g. auto. }
      destruct (Hs _ _ Ej) as (g & Hg & Hgt & Hgn).
      apply (Hlater (S j) g); auto; lia.
    + apply String.eqb_neq in Ht. rewrite Ht. simpl. apply String.eqb_eq in Hn. rewrite Hn. reflexivity.
  - rewrite (IH i Hi Ht Hn); [reflexivity|].
    intros j g Hj Hg. apply (Hlater (S j) g); [lia|exact Hg].
Qed.

Lemma insertByKey_perm {A} (p : string * A) l : Permutation (insertByKey p l) (p :: l).
Proof.
  induction l as [|q l IH]; simpl; [reflexivity|].
  destruct (String.leb (fst p) (fst q)); [reflexivity|].
  rewrite IH. apply perm_swap.
Qed.

Lemma sortByKey_perm {A} (l : list (string * A)) : Permutation (sortByKey l) l.
Proof.
  induction l as [|p l IH]; simpl; [reflexivity|].
  rewrite insertByKey_perm, IH. reflexivity.
Qed.

Lemma Forall_setKey {A} (Q : string * A -> Prop) m k x :
  Forall Q m -> Q (k, x) -> Forall Q (setKey m k x).
Proof.
  induction m as [|[k' y] m IH]; simpl; intros Hm Hq; [auto|].
  inversion Hm; subst.
  destruct (String.eqb k k'); constructor; auto.
Qed.

Lemma keys_marshalFields (fs : list (string * anyField)) k :
  (exists ps, marshalFields fs = JObj ps /\ (In k (map fst ps) <-> In k (map fst fs))).
Proof.
  eexists; split; [reflexivity|].
  rewrite map_map. simpl.
  split; intros H; eapply Permutation_in; try exact H;
    [apply Permutation_map, sortByKey_perm | symmetry; apply Permutation_map, sortByKey_perm].
Qed.

Lemma forEachMembers_app {S} (it : string -> json -> S -> res S) l1 l2 st :
  forEachMembers it (l1 ++ l2) st = (st' <- forEachMembers it l1 st ;; forEachMembers it l2 st').
Proof.
  revert st. induction l1 as [|[k v] l1 IH]; intros st; simpl; [reflexivity|].
  destruct (it k v st); simpl; auto.
Qed.

Lemma updateField_length k i fs vs vs' :
  updateField k i fs vs = Ok vs' -> List.length vs' = List.length vs.
Proof.
  revert i vs vs'. induction fs as [|f fs IH]; intros i vs vs' H; destruct vs as [|x vs];
    simpl in H; try discriminate.
  destruct i as [|i].
  - destruct (k f x); simpl in H; try discriminate. injection H as <-. reflexivity.
  - destruct (updateField k i fs vs) as [r| |] eqn:E; simpl in H; try discriminate.
    injection H as <-. simpl. f_equal. eapply IH. exact E.
Qed.


Lemma updateField_Err k i fs vs f fv e :
  nth_error fs i = Some f -> nth_error vs i = Some fv -> k f fv = Err e ->
  updateField k i fs vs = Err e.
Proof.
  revert i vs. induction fs as [|f0 fs IH]; intros i vs Hf Hv Hk;
    [destruct i; discriminate|].
  destruct vs as [|x0 vs]; [destruct i; discriminate|].
  destruct i as [|i]; simpl in *.
  - injection Hf as <-. injection Hv as <-. rewrite Hk. reflexivity.
  - rewrite (IH i vs Hf Hv Hk). reflexivity.
Qed.

Lemma structMember_length ms r c w fs key value vs vs' :
  structMember ms r c w fs key value vs = Ok vs' -> List.length vs' = List.length vs.
Proof.
  unfold structMember. destruct (lookupKey (buildIndexMap fs) key).
  - apply updateField_length.
  - intros H; injection H as <-; reflexivity.
Qed.

Lemma forEachMembers_structMember_length ms r c w fs l vs vs' :
  forEachMembers (structMember ms r c w fs) l vs = Ok vs' -> List.length vs' = List.length vs.
Proof.
  revert vs. induction l as [|[k v] l IH]; intros vs H; simpl in H.
  - injection H as <-; reflexivity.
  - destruct (structMember ms r c w fs k v vs) as [vs1| |] eqn:E; simpl in H; try discriminate.
    rewrite (IH _ H). eapply structMember_length; exact E.
Qed.

(** [decode] on an object, for a struct and for a map. *)
Lemma decode_struct_obj ms r ps n fs p s :
  decode ms r (JObj ps) (TStruct n fs) p s =
  (x <- match p with
        | Some x => Ok x
        | None => if s then Ok (zero (TStruct n fs)) else Panic unaddressable
        end ;;
   let vs := match x with
             | VStruct _ _ vs => vs
             | _ => match zero (TStruct n fs) with VStruct _ _ vs => vs | _ => [] end
             end in
   vs' <- forEachMembers (structMember ms r (decodeContent ms r) (decodeWrapped ms r) fs) ps vs ;;
   Ok (VStruct n fs vs')).
Proof. reflexivity. Qed.

Lemma decode_map_obj ms r ps kt et p s :
  decode ms r (JObj ps) (TMap kt et) p s =
  (x <- match p with
        | Some x => Ok x
        | None => if s then Ok (zero (TMap kt et)) else Panic unaddressable
        end ;;
   let m0 := match x with VMap _ _ (Some _) => Some [] | _ => None end in
   m <- forEachMembers (mapEntry ms r (decodeContent ms r) (decodeWrapped ms r) kt et) ps m0 ;;
   Ok (VMap kt et m)).
Proof. reflexivity. Qed.

Lemma decode_ptr ms r j u p s :
  decode ms r j (TPtr u) p s =
  (x <- match p with
        | Some x => Ok x
        | None => if s then Ok (zero (TPtr u)) else Panic unaddressable
        end ;;
   let q := match x with VPtr _ q => q | _ => None end in
   y <- decode ms r j u q true ;; Ok (VPtr u (Some y))).
Proof. destruct j; reflexivity. Qed.

Lemma decode_None_settable ms r j t :
  decode ms r j t None true = decode ms r j t (Some (zero t)) true.
Proof. destruct j, t; reflexivity. Qed.

Lemma keyEqb_eq a b : keyEqb a b = true -> a = b.
Proof.
  destruct a, b; simpl; intros H; try discriminate.
  - apply Bool.eqb_prop in H; subst; reflexivity.
  - apply Z.eqb_eq in H; subst; reflexivity.
  - apply String.eqb_eq in H; subst; reflexivity.
Qed.

Lemma In_keys_mapSet es k x key :
  In key (map fst (mapSet es k x)) <-> key = k \/ In key (map fst es).
Proof.
  induction es as [|[k' y] es IH]; simpl.
  - intuition congruence.
  - destruct (keyEqb k k') eqn:E; simpl.
    + apply keyEqb_eq in E; subst k'. intuition congruence.
    + rewrite IH. tauto.
Qed.


(** gjson's [Map()] only ever adds entries after those it has. *)
Lemma gjsonMap_prefix ps acc :
  exists l, fold_left (fun (acc : list (string * json)) (p : string * json) =>
      if existsb (fun q => String.eqb (fst q) (fst p)) acc then acc
      else (acc ++ [p])%list) ps acc = (acc ++ l)%list.
Proof.
  revert acc. induction ps as [|p ps IH]; intros acc; simpl.
  - exists []. rewrite app_nil_r. reflexivity.
  - destruct (existsb _ acc).
    + exact (IH acc).
    + destruct (IH (acc ++ [p])%list) as [l Hl]. rewrite Hl.
      exists (p :: l). rewrite <- app_assoc. reflexivity.
Qed.

(** When gjson's [Map()] has one entry, the loop over it sees that entry. *)
Lemma withFirstMember_one {A} value key x (d : A) k :
  gjsonMap value = [(key, x)] -> withFirstMember value d k = k key x.
Proof.
  intros H. destruct value as [| | | | |ps]; try (simpl in H; discriminate).
  destruct ps as [|[k0 x0] ps0]; [simpl in H; discriminate|].
  simpl in H |- *. destruct (gjsonMap_prefix ps0 [(k0, x0)]) as [l Hl].
  rewrite Hl in H. simpl in H. injection H as Hk Hx _. subst. reflexivity.
Qed.

(** A successful [unmarshal] was given a pointer [*t]. *)
Lemma unmarshal_Ok_ptr ms r j h t x :
  unmarshal ms r j h false = Ok (t, x) -> exists p, h = Some (VPtr t p).
Proof.
  unfold unmarshal, unmarshalHandle.
  destruct h as [[]|]; simpl; try discriminate.
  destruct (decode ms r j elem pointee false); simpl; try discriminate.
  intros H; injection H as <- _. eauto.
Qed.

(** ** Map keys *)

(** C8: map-key stringify and unstringify succeed exactly for keys of
    string kind (the stringified key is the string itself); any other key
    fails with an error carrying the key's runtime type ([%T] of
    [mapKey.Interface()]), and this failure is what encoding a map with such
    a key and decoding an object into such a map return. *)
Theorem mapKey_string_kind_only :
  (forall k, kindOf (typeOf k) = KString -> exists s, k = VStr s /\ stringifyMapKey k = Ok s) /\
  (forall k, kindOf (typeOf k) <> KString ->
     stringifyMapKey k = Err (EStringifyKey k (dynTypeOf k))) /\
  (forall k s, kindOf (typeOf k) = KString -> unstringifyMapKey k s = Ok (VStr s)) /\
  (forall k s, kindOf (typeOf k) <> KString ->
     unstringifyMapKey k s = Err (EUnstringifyKey (dynTypeOf k) s)) /\
  (forall r kt e key x rest, kindOf (typeOf key) <> KString ->
     marshal r (VMap kt e (Some ((key, x) :: rest))) =
     Err (EMapKey (dynTypeOf key) (EStringifyKey key (dynTypeOf key)))) /\
  (forall ms r kt et cur key value ps s, kindOf kt <> KString ->
     decode ms r (JObj ((key, value) :: ps)) (TMap kt et) (Some cur) s =
     Err (EKey key (EUnstringifyKey (dynTypeOf (zero kt)) key))).
Proof.
  repeat split.
  - intros k H. destruct k; simpl in H; try discriminate. eexists; split; reflexivity.
  - intros k H. destruct k; simpl in H; try congruence; reflexivity.
  - intros k s H. destruct k; simpl in H; try discriminate. reflexivity.
  - intros k s H. destruct k; simpl in H; try congruence; reflexivity.
  - intros r kt e key x rest H. simpl.
    destruct key; simpl in H; try congruence; reflexivity.
  - intros ms r kt et cur key value ps s H. rewrite decode_map_obj. simpl.
    destruct kt; simpl in H; try congruence; reflexivity.
Qed.

(** ** Destinations *)

(** C4: a nil destination, and a nil pointer destination, make
    [UnmarshalWithTypeIDs] panic: formatting the error about the invalid
    [reflect.Value] calls [Interface()] on it, and [v.Set] on the pointer
    obtained by [reflect.ValueOf(dst)] is refused as unaddressable. *)
Theorem UnmarshalWithTypeIDs_nil_destination_panics :
  (forall ms r b, UnmarshalWithTypeIDs ms b None r = Panic zeroValueInterface) /\
  (forall ms r b t, UnmarshalWithTypeIDs ms b (Some (VPtr t None)) r = Panic unaddressable).
Proof.
  split; [reflexivity|].
  intros ms r b t. unfold UnmarshalWithTypeIDs, unmarshal, unmarshalHandle.
  destruct b, t; reflexivity.
Qed.

(** ** Absent interface values in maps *)

(** C3: an untyped nil in a [map[string]I] is not encoded as [null]: the map
    case stores the [[]byte] of [null] itself, which encoding/json writes
    as the base64 string ["bnVsbA=="]; decoding that output into a
    [map[string]I] fails, the string not being a one-key object. *)
Theorem map_absent_interface_roundtrip_fails :
  forall r ms n ims key,
  marshal r (VMap TString (TIface n ims) (Some [(VStr key, VIface n ims None)])) =
    Ok (JObj [(key, JStr (base64 "null"))]) /\
  UnmarshalWithTypeIDs ms (JObj [(key, JStr (base64 "null"))])
    (Some (VPtr (TMap TString (TIface n ims)) (Some (zero (TMap TString (TIface n ims)))))) r =
    Err (EEntry (JStr (base64 "null")) key (EExpectedOne 0)).
Proof.
  intros r ms n ims key. split; reflexivity.
Qed.

(** C2: in a map whose value type is not an interface, every entry is
    written as the base64 string of the bytes of its encoded content, and
    not as the content itself. *)
Theorem map_entries_written_as_base64 :
  forall r k e es j, isIface e = false ->
  marshal r (VMap k e (Some es)) = Ok j ->
  exists ps, j = JObj ps /\
    Forall (fun p => exists key value b, In (key, value) es /\ stringifyMapKey key = Ok (fst p) /\
                       marshal r value = Ok b /\ snd p = JStr (base64 (render b))) ps.
Proof.
  intros r k e es j He H. simpl in H.
  set (Q := fun (p : string * anyField) => exists key value b, In (key, value) es /\
              stringifyMapKey key = Ok (fst p) /\ marshal r value = Ok b /\ snd p = PlainBytes b).
  assert (Loop : forall l acc acc', incl l es -> Forall Q acc ->
            marshalMapEntries r (marshal r) e l acc = Ok acc' -> Forall Q acc').
  { induction l as [|[key value] l IH]; intros acc acc' Hincl HQ Hl; simpl in Hl.
    - injection Hl as <-. exact HQ.
    - destruct (stringifyMapKey key) as [name| |] eqn:Ek; simpl in Hl; try discriminate.
      destruct (marshal r value) as [b| |] eqn:Eb; simpl in Hl; try discriminate.
      rewrite He in Hl.
      eapply IH; [intros z Hz; apply Hincl; right; exact Hz| |exact Hl].
      apply Forall_setKey; [exact HQ|].
      exists key, value, b. repeat split; auto. apply Hincl. left. reflexivity. }
  destruct (marshalMapEntries r (marshal r) e es []) as [acc| |] eqn:El; simpl in H; try discriminate.
  injection H as <-.
  pose proof (Loop es [] acc (incl_refl _) (Forall_nil _) El) as HQ.
  eexists; split; [reflexivity|].
  apply Forall_map.
  apply (Permutation_Forall (Permutation_sym (sortByKey_perm acc))) in HQ.
  eapply Forall_impl; [|exact HQ].
  intros [name x] (key & value & b & Hin & Hk & Hb & Hx). simpl in *.
  exists key, value, b. subst x. auto.
Qed.

(** ** Resolver errors *)

(** C9: when the resolver has no TypeID for the dynamic value of an
    interface slot, encoding fails with the resolver's error wrapped with
    the dynamic type only: neither the struct field's name nor the map
    key appears in the error (the errors about the content of a field or
    entry do carry them). *)
Theorem typeID_error_names_no_field :
  forall r n fname tag iname ims x b e key,
  tag <> "-" -> marshal r x = Ok b -> TypeIDOf r x = Err e ->
  marshal r (VStruct n [(fname, "", tag, TIface iname ims)] [VIface iname ims (Some x)]) =
    Err (ETypeID (Some (typeOf x)) e) /\
  marshal r (VMap TString (TIface iname ims) (Some [(VStr key, VIface iname ims (Some x))])) =
    Err (ETypeID (Some (typeOf x)) e).
Proof.
  intros r n fname tag iname ims x b e key Ht Hb He. split.
  - simpl. apply String.eqb_neq in Ht. rewrite Ht. simpl. rewrite Hb. simpl.
    rewrite He. reflexivity.
  - simpl. rewrite Hb. simpl. rewrite He. reflexivity.
Qed.

(** [unmarshalTo] on a slot of interface type, for a value other than
    [null]. *)
Lemma unmarshalTo_iface ms r c w out n ims value :
  value <> JNull ->
  unmarshalTo ms r c w out (TIface n ims) value =
  (let m := gjsonMap value in
   if negb (Nat.eqb (List.length m) 1) then Err (EExpectedOne (List.length m)) else
   withFirstMember value (Err (EExpectedOne 0)) (fun typeID valueUnparsed =>
     typedValuePtr <- wrap (ENewByTypeID typeID) (NewByTypeID r typeID) ;;
     contentOut <- wrap EUnmarshal (w valueUnparsed typedValuePtr) ;;
     let '(t, x) := contentOut in
     if AssignableTo ms t (TIface n ims) then Ok (setSlot (TIface n ims) x)
     else if AssignableTo ms (TPtr t) (TIface n ims) then Ok (setSlot (TIface n ims) (VPtr t (Some x)))
     else Err (EAssign (TIface n ims)))).
Proof. intros Hv. destruct value; congruence || reflexivity. Qed.

(** ** Interface slots *)

(** C7: once the content of a one-key wrapper has been decoded into the
    instance the resolver allocated (a pointer [*t], now pointing at [x]),
    the slot of interface type [I] receives the pointee [x] when [t] is
    assignable to [I]; otherwise the pointer itself when [*t] is; otherwise
    decoding fails with the internal assignment error. *)
Theorem interface_slot_assignment :
  forall ms r out n ims value typeID valueUnparsed h t x,
  value <> JNull ->
  gjsonMap value = [(typeID, valueUnparsed)] ->
  NewByTypeID r typeID = Ok h ->
  decodeWrapped ms r valueUnparsed h = Ok (t, x) ->
  (exists p, h = Some (VPtr t p)) /\
  unmarshalTo ms r (decodeContent ms r) (decodeWrapped ms r) out (TIface n ims) value =
    if AssignableTo ms t (TIface n ims) then Ok (VIface n ims (unwrapIface x))
    else if AssignableTo ms (TPtr t) (TIface n ims) then Ok (VIface n ims (Some (VPtr t (Some x))))
    else Err (EAssign (TIface n ims)).
Proof.
  intros ms r out n ims value typeID valueUnparsed h t x Hv Hm Hh Hw. split.
  - eapply unmarshal_Ok_ptr. exact Hw.
  - rewrite unmarshalTo_iface by exact Hv.
    cbv zeta. rewrite Hm. simpl Nat.eqb. cbv iota beta.
    rewrite (withFirstMember_one _ _ _ _ _ Hm).
    rewrite Hh. simpl. rewrite Hw. simpl. reflexivity.
Qed.

Lemma unmarshalTo_iface_not_one ms r c w out outType value :
  kindOf outType = KInterface -> value <> JNull -> List.length (gjsonMap value) <> 1 ->
  unmarshalTo ms r c w out outType value = Err (EExpectedOne (List.length (gjsonMap value))).
Proof.
  intros Hk Hv Hn. destruct outType; try discriminate.
  rewrite unmarshalTo_iface by exact Hv. cbv zeta.
  apply Nat.eqb_neq in Hn. rewrite Hn. reflexivity.
Qed.

(** C5: decoding into a struct field or map entry of interface type a
    JSON value other than [null] requires the value to be an object with
    exactly one key (gjson's [Map()] of the value, which keeps one member
    per key, has one entry).  Otherwise, with [n] keys ([0] for anything but
    an object), the slot fails with "expected exactly one value, but got n",
    and in a struct this error ends the decoding of the whole object. *)
Theorem interface_wrapper_needs_one_key :
  (forall ms r c w out outType value, kindOf outType = KInterface -> value <> JNull ->
     List.length (gjsonMap value) <> 1 ->
     unmarshalTo ms r c w out outType value = Err (EExpectedOne (List.length (gjsonMap value)))) /\
  (forall ms r n fs vs pre key value post i fname tag iname ims vs1 s,
     List.length vs = List.length fs ->
     lookupKey (buildIndexMap fs) key = Some i ->
     nth_error fs i = Some (fname, "", tag, TIface iname ims) ->
     value <> JNull -> List.length (gjsonMap value) <> 1 ->
     forEachMembers (structMember ms r (decodeContent ms r) (decodeWrapped ms r) fs) pre vs = Ok vs1 ->
     decode ms r (JObj (pre ++ (key, value) :: post)%list) (TStruct n fs) (Some (VStruct n fs vs)) s =
       Err (EStructField value key (EExpectedOne (List.length (gjsonMap value))))).
Proof.
  split; [exact unmarshalTo_iface_not_one|].
  intros ms r n fs vs pre key value post i fname tag iname ims vs1 s Hlen Hi Hf Hv Hn Hpre.
  rewrite decode_struct_obj. simpl bind. cbv zeta.
  rewrite forEachMembers_app, Hpre. simpl.
  assert (Hl1 : List.length vs1 = List.length fs).
  { rewrite (forEachMembers_structMember_length _ _ _ _ _ _ _ _ Hpre). exact Hlen. }
  assert (Hlt : i < List.length vs1).
  { rewrite Hl1. apply nth_error_Some. congruence. }
  destruct (nth_error vs1 i) as [fv|] eqn:Ev; [|apply nth_error_Some in Hlt; congruence].
  unfold structMember. rewrite Hi.
  erewrite updateField_Err; [reflexivity|exact Hf|exact Ev|].
  simpl. rewrite unmarshalTo_iface_not_one by (reflexivity || assumption). reflexivity.
Qed.

(** ** Map destinations *)

Lemma forEachMembers_mapEntry_keys ms r c w kt et l m m' :
  forEachMembers (mapEntry ms r c w kt et) l m = Ok m' ->
  forall k, In k (mapKeys m') <-> In k (mapKeys m) \/ exists key, k = VStr key /\ In key (map fst l).
Proof.
  revert m. induction l as [|[key value] l IH]; intros m H k; simpl in H.
  - injection H as <-. simpl. split; [tauto|]. intros [H|(key & _ & [])]. exact H.
  - destruct (mapEntry ms r c w kt et key value m) as [m1| |] eqn:E; simpl in H; try discriminate.
    rewrite (IH _ H k). unfold mapEntry in E.
    destruct (unstringifyMapKey (zero kt) key) as [kv| |] eqn:Ek; simpl in E; try discriminate.
    assert (Hkv : kv = VStr key).
    { destruct (zero kt); simpl in Ek; try discriminate. congruence. }
    subst kv.
    destruct (unmarshalTo ms r c w (zero et) et value) as [x| |]; simpl in E; try discriminate.
    injection E as <-. simpl. rewrite In_keys_mapSet.
    assert (Hm : In k (map fst (match m with Some es => es | None => [] end)) <-> In k (mapKeys m))
      by (destruct m; simpl; tauto).
    rewrite Hm. simpl. firstorder congruence.
Qed.

(** C6: decoding an object into a map first empties the map: after a
    successful decode the map's keys are exactly the object's keys, whatever
    keys it held before. *)
Theorem map_decode_replaces_entries :
  forall ms r kt et m ps s v,
  decode ms r (JObj ps) (TMap kt et) (Some (VMap kt et m)) s = Ok v ->
  exists m', v = VMap kt et m' /\
    forall k, In k (mapKeys m') <-> exists key, k = VStr key /\ In key (map fst ps).
Proof.
  intros ms r kt et m ps s v H.
  rewrite decode_map_obj in H. simpl bind in H. cbv zeta in H.
  set (m0 := match m with Some _ => Some [] | None => None end) in H.
  destruct (forEachMembers (mapEntry ms r (decodeContent ms r) (decodeWrapped ms r) kt et) ps m0)
    as [m'| |] eqn:E; simpl in H; try discriminate.
  injection H as <-. exists m'. split; [reflexivity|].
  intros k. rewrite (forEachMembers_mapEntry_keys _ _ _ _ _ _ _ _ _ E k).
  assert (Hm0 : mapKeys m0 = []) by (subst m0; destruct m; reflexivity).
  rewrite Hm0. simpl. tauto.
Qed.

(** ** Struct field names *)

Lemma marshalStructFields_keys r n fs0 l xs i acc acc' :
  List.length l = List.length xs ->
  marshalStructFields r (marshal r) n fs0 i l xs acc = Ok acc' ->
  (forall k, In k (map fst acc) -> In k (map fst acc')) /\
  (forall f, In f l -> fPkgPath f = "" -> fTag f <> "-" -> In (jsonFieldName f) (map fst acc')).
Proof.
  revert xs i acc. induction l as [|f l IH]; intros xs i acc Hlen H;
    destruct xs as [|x xs]; simpl in Hlen; try discriminate.
  - simpl in H. injection H as <-. split; [auto|intros ? []].
  - injection Hlen as Hlen. simpl in H.
    destruct (String.eqb (fPkgPath f) "") eqn:Ep; simpl in H.
    2:{ destruct (IH _ _ _ Hlen H) as [H1 H2]. split; [exact H1|].
        intros g [<-|Hg] Hgp Hgt; [apply String.eqb_neq in Ep; congruence|auto]. }
    destruct (String.eqb (fTag f) "-") eqn:Et.
    { destruct (IH _ _ _ Hlen H) as [H1 H2]. split; [exact H1|].
      intros g [<-|Hg] Hgp Hgt; [apply String.eqb_eq in Et; congruence|auto]. }
    destruct (marshal r x) as [b| |]; simpl in H; try discriminate.
    assert (Step : exists X, marshalStructFields r (marshal r) n fs0 (S i) l xs
                               (setKey acc (jsonFieldName f) X) = Ok acc').
    { destruct (isIface (fType f)), (unwrapIface x) as [y|]; eauto.
      destruct (TypeIDOf r y); simpl in H; try discriminate. eauto. }
    destruct Step as [X HX]. destruct (IH _ _ _ Hlen HX) as [H1 H2]. split.
    + intros k Hk. apply H1. apply In_keys_setKey. auto.
    + intros g [<-|Hg] Hgp Hgt; [|auto]. apply H1. apply In_keys_setKey. auto.
Qed.

(** C10 (amended): in the struct traversal of both directions (structs
    reached through pointers, maps and interface slots, not through slices,
    whose elements encoding/json handles), a field's tag only contributes
    its first word, as the wire name: every exported field not tagged
    ["-"] gives a member of the output, whatever options its tag carries
    ([omitempty] included), and a member with that wire name is decoded
    into that field unless a later field not tagged ["-"] has the same wire
    name. *)
Theorem struct_fields_named_by_first_tag_word :
  (forall r n fs vs j f, List.length vs = List.length fs ->
     marshal r (VStruct n fs vs) = Ok j -> In f fs -> fPkgPath f = "" -> fTag f <> "-" ->
     exists ps, j = JObj ps /\ In (jsonFieldName f) (map fst ps)) /\
  (forall fs i f, nth_error fs i = Some f -> fTag f <> "-" ->
     (forall i' g, i < i' -> nth_error fs i' = Some g -> fTag g <> "-" ->
        jsonFieldName g <> jsonFieldName f) ->
     lookupKey (buildIndexMap fs) (jsonFieldName f) = Some i).
Proof.
  split.
  - intros r n fs vs j f Hlen H Hf Hp Ht. simpl in H.
    destruct (marshalStructFields r (marshal r) n fs 0 fs vs []) as [acc| |] eqn:E;
      simpl in H; try discriminate.
    injection H as <-.
    destruct (marshalStructFields_keys _ _ _ _ _ _ _ _ (eq_sym Hlen) E) as [_ H2].
    destruct (keys_marshalFields acc (jsonFieldName f)) as (ps & Hps & Hin).
    exists ps. split; [exact Hps|]. apply Hin. auto.
  - intros fs i f Hf Ht Hlater. rewrite lookupKey_buildIndexMap.
    eapply lastMatch_nth; eauto.
Qed.

(** ** The round trip *)












Lemma nth_error_setNth_same vs i x :
  i < List.length vs -> nth_error (setNth vs i x) i = Some x.
Proof.
  revert i. induction vs as [|y vs IH]; intros i H; simpl in H; [lia|].
  destruct i; simpl; [reflexivity|]. apply IH. lia.
Qed.

Lemma nth_error_setNth_other vs i j x :
  i <> j -> nth_error (setNth vs i x) j = nth_error vs j.
Proof.
  revert i j. induction vs as [|y vs IH]; intros i j H; [reflexivity|].
  destruct i, j; simpl; try reflexivity; [congruence|]. apply IH. congruence.
Qed.














Lemma StronglySorted_map_fst {A B} (R : string -> string -> Prop) (f : A -> B) (l : list (string * A)) :
  StronglySorted (fun a b => R (fst a) (fst b)) l ->
  StronglySorted (fun a b => R (fst a) (fst b)) (map (fun p => (fst p, f (snd p))) l).
Proof.
  induction 1 as [|p l Hs IH Hf]; simpl; constructor; [exact IH|].
  rewrite Forall_map. eapply Forall_impl; [|exact Hf]. intros q Hq. exact Hq.
Qed.













(** Outside the round-trip domain: an empty non-nil map comes back as
    the nil map. *)
Example roundtrip_empty_map_comes_back_nil :
  MarshalWithTypeIDs (Some emptyMapStringAny) readmeRegistry = Ok (JObj []) /\
  UnmarshalWithTypeIDs noMethods (JObj []) (Some (VPtr mapStringAny (Some (zero mapStringAny))))
    readmeRegistry = Ok (VPtr mapStringAny (Some (VMap TString anyTy None))).
Proof. split; vm_compute; reflexivity. Qed.

(** Outside the round-trip domain: a nil [*int] is written as [null],
    which decodes into a pointer to a fresh zero [int]. *)
Example roundtrip_nil_pointer_comes_back_allocated :
  MarshalWithTypeIDs (Some (VPtr TInt None)) readmeRegistry = Ok JNull /\
  UnmarshalWithTypeIDs noMethods JNull (Some (VPtr (TPtr TInt) (Some (zero (TPtr TInt)))))
    readmeRegistry = Ok (VPtr (TPtr TInt) (Some (VPtr TInt (Some (VInt 0))))).
Proof. split; vm_compute; reflexivity. Qed.

(** Outside the round-trip domain: a field of type [*any] is written
    without a type tag, and decoding it fails. *)
Example roundtrip_pointer_to_interface_fails :
  MarshalWithTypeIDs (Some ptrAnyValue) readmeRegistry = Ok (JObj [("F", JObj [("A", JNum 1)])]) /\
  UnmarshalWithTypeIDs noMethods (JObj [("F", JObj [("A", JNum 1)])])
    (Some (VPtr ptrAnyHolder (Some (zero ptrAnyHolder)))) readmeRegistry =
    Err (EStructField (JObj [("A", JNum 1)]) "F" (EUnmarshal (ENotPointer None))).
Proof. split; vm_compute; reflexivity. Qed.

Lemma mapKey_string_kind_only_witness :
  (exists s, VStr "k" = VStr s /\ stringifyMapKey (VStr "k") = Ok s) /\
  stringifyMapKey (VInt 1) = Err (EStringifyKey (VInt 1) (dynTypeOf (VInt 1))) /\
  unstringifyMapKey (VStr "") "k" = Ok (VStr "k") /\
  unstringifyMapKey (VInt 0) "k" = Err (EUnstringifyKey (dynTypeOf (VInt 0)) "k") /\
  marshal (registry []) (VMap TInt anyTy (Some [(VInt 1, VIface anyName [] None)])) =
    Err (EMapKey (dynTypeOf (VInt 1)) (EStringifyKey (VInt 1) (dynTypeOf (VInt 1)))) /\
  decode noMethods (registry []) (JObj [("1", JNum 2)]) (TMap TInt TInt) (Some (zero (TMap TInt TInt))) false =
    Err (EKey "1" (EUnstringifyKey (dynTypeOf (zero TInt)) "1")).
Proof.
  destruct mapKey_string_kind_only as (H1 & H2 & H3 & H4 & H5 & H6).
  split; [apply H1; reflexivity|].
  split; [apply H2; discriminate|].
  split; [apply H3; reflexivity|].
  split; [apply H4; discriminate|].
  split; [apply H5; discriminate|].
  apply H6. discriminate.
Defined.

Lemma map_entries_written_as_base64_witness :
  isIface TInt = false /\
  marshal (registry []) (VMap TString TInt (Some [(VStr "a", VInt 1)])) = Ok (JObj [("a", JStr "MQ==")]) /\
  exists ps, JObj [("a", JStr "MQ==")] = JObj ps /\
    Forall (fun p => exists key value b, In (key, value) [(VStr "a", VInt 1)] /\
              stringifyMapKey key = Ok (fst p) /\ marshal (registry []) value = Ok b /\
              snd p = JStr (base64 (render b))) ps.
Proof.
  split; [reflexivity|]. split; [vm_compute; reflexivity|].
  apply (map_entries_written_as_base64 (registry []) TString TInt [(VStr "a", VInt 1)]);
    [reflexivity|vm_compute; reflexivity].
Defined.

Lemma typeID_error_names_no_field_witness :
  marshal (registry []) (VStruct "Holder" [("F", "", "", anyTy)] [VIface anyName [] (Some (VStruct "T" [] []))]) =
    Err (ETypeID (Some (TStruct "T" [])) (EResolver "unknown type")) /\
  marshal (registry []) (VMap TString anyTy (Some [(VStr "k", VIface anyName [] (Some (VStruct "T" [] [])))])) =
    Err (ETypeID (Some (TStruct "T" [])) (EResolver "unknown type")).
Proof.
  apply (typeID_error_names_no_field (registry []) "Holder" "F" "" anyName [] (VStruct "T" [] [])
           (JObj []) (EResolver "unknown type") "k").
  - discriminate.
  - reflexivity.
  - reflexivity.
Defined.

Lemma interface_slot_assignment_witness :
  (exists p, Some (VPtr myFancyStruct (Some (zero myFancyStruct))) = Some (VPtr myFancyStruct p)) /\
  unmarshalTo noMethods readmeRegistry (decodeContent noMethods readmeRegistry)
    (decodeWrapped noMethods readmeRegistry) (zero anyTy) anyTy
    (JObj [(myFancyStructID, JObj [("A", JNum 1)])]) =
    Ok (VIface anyName [] (Some (VStruct "polyjson_test.myFancyStruct" [("A", "", "", TInt)] [VInt 1]))).
Proof.
  apply (interface_slot_assignment noMethods readmeRegistry (zero anyTy) anyName []
           (JObj [(myFancyStructID, JObj [("A", JNum 1)])]) myFancyStructID (JObj [("A", JNum 1)])
           (Some (VPtr myFancyStruct (Some (zero myFancyStruct)))) myFancyStruct
           (VStruct "polyjson_test.myFancyStruct" [("A", "", "", TInt)] [VInt 1])).
  - discriminate.
  - reflexivity.
  - reflexivity.
  - vm_compute. reflexivity.
Defined.

Lemma interface_wrapper_needs_one_key_witness :
  unmarshalTo noMethods (registry []) (decodeContent noMethods (registry []))
    (decodeWrapped noMethods (registry [])) (zero anyTy) anyTy (JNum 5) = Err (EExpectedOne 0) /\
  decode noMethods (registry []) (JObj [("x", twoKeys)]) (TStruct "Holder" ifaceHolderFields)
    (Some (zero (TStruct "Holder" ifaceHolderFields))) false =
    Err (EStructField twoKeys "x" (EExpectedOne 2)).
Proof.
  destruct interface_wrapper_needs_one_key as [H1 H2]. split.
  - apply (H1 noMethods (registry []) _ _ (zero anyTy) anyTy (JNum 5)).
    + reflexivity.
    + discriminate.
    + simpl. discriminate.
  - apply (H2 noMethods (registry []) "Holder" ifaceHolderFields [VIface anyName [] None] []
             "x" twoKeys [] 0 "X" "x" anyName [] [VIface anyName [] None] false).
    + reflexivity.
    + reflexivity.
    + reflexivity.
    + discriminate.
    + vm_compute. discriminate.
    + reflexivity.
Defined.

Lemma map_decode_replaces_entries_witness :
  decode noMethods (registry []) (JObj [("k2", JNum 2)]) (TMap TString TInt)
    (Some (VMap TString TInt (Some [(VStr "k1", VInt 1)]))) false =
    Ok (VMap TString TInt (Some [(VStr "k2", VInt 2)])) /\
  exists m', VMap TString TInt (Some [(VStr "k2", VInt 2)]) = VMap TString TInt m' /\
    forall k, In k (mapKeys m') <-> exists key, k = VStr key /\ In key (map fst [("k2", JNum 2)]).
Proof.
  split; [vm_compute; reflexivity|].
  apply (map_decode_replaces_entries noMethods (registry []) TString TInt
           (Some [(VStr "k1", VInt 1)]) [("k2", JNum 2)] false).
  vm_compute. reflexivity.
Defined.

Lemma struct_fields_named_by_first_tag_word_witness :
  (exists ps, JObj [("a", JNum 0)] = JObj ps /\ In "a" (map fst ps)) /\
  lookupKey (buildIndexMap [("A", "", "a,omitempty", TInt)]) (jsonFieldName ("A", "", "a,omitempty", TInt)) = Some 0.
Proof.
  destruct struct_fields_named_by_first_tag_word as [H1 H2]. split.
  - apply (H1 (registry []) "S" [("A", "", "a,omitempty", TInt)] [VInt 0] (JObj [("a", JNum 0)])
             ("A", "", "a,omitempty", TInt)).
    + reflexivity.
    + vm_compute. reflexivity.
    + left. reflexivity.
    + reflexivity.
    + discriminate.
  - apply H2.
    + reflexivity.
    + discriminate.
    + intros i' g Hi Hg. destruct i' as [|[|i']]; [lia|discriminate|discriminate].
Defined.

(** C10, counterexample: a struct reached through a slice is encoded by
    encoding/json, which honours [omitempty]: the zero field [A] of
    [S], tagged ["a,omitempty"], is absent from the output. *)
Lemma omitempty_in_slice_element :
  MarshalWithTypeIDs (Some sliceHolder) (registry []) = Ok (JObj [("L", JArr [JObj []])]).
Proof. vm_compute. reflexivity. Qed.

(** ** Further properties of the encoder and the decoder *)

Lemma str_leb_trans a b c :
  String.leb a b = true -> String.leb b c = true -> String.leb a c = true.
Proof.
  unfold String.leb. revert b c.
  induction a as [|x a IH]; intros [|y b] [|z c]; simpl; try congruence.
  unfold Ascii.compare.
  destruct (N.compare_spec (N_of_ascii x) (N_of_ascii y)) as [E1|E1|E1]; try congruence;
  destruct (N.compare_spec (N_of_ascii y) (N_of_ascii z)) as [E2|E2|E2]; try congruence;
  destruct (N.compare_spec (N_of_ascii x) (N_of_ascii z)) as [E3|E3|E3]; try congruence; try lia.
  apply IH.
Qed.

Lemma insertByKey_sortedS {A} (p : string * A) l :
  StronglySorted (fun a b => String.leb (fst a) (fst b) = true) l ->
  StronglySorted (fun a b => String.leb (fst a) (fst b) = true) (insertByKey p l).
Proof.
  induction 1 as [|q l Hs IH Hf]; simpl.
  - repeat constructor.
  - destruct (String.leb (fst p) (fst q)) eqn:Epq.
    + constructor; [constructor; assumption|].
      constructor; [exact Epq|].
      eapply Forall_impl; [|exact Hf]. intros c Hc. eapply str_leb_trans; eassumption.
    + constructor; [exact IH|].
      assert (Hqp : String.leb (fst q) (fst p) = true).
      { destruct (String.leb_total (fst q) (fst p)) as [H|H]; congruence. }
      eapply Permutation_Forall; [symmetry; apply insertByKey_perm|].
      constructor; assumption.
Qed.

Lemma sortByKey_sortedS {A} (l : list (string * A)) :
  StronglySorted (fun a b => String.leb (fst a) (fst b) = true) (sortByKey l).
Proof.
  induction l as [|p l IH]; simpl; [constructor|].
  apply insertByKey_sortedS. exact IH.
Qed.

(** Two sorted lists with distinct keys holding the same entries are equal. *)
Lemma sorted_perm_eq {A} (l1 l2 : list (string * A)) :
  StronglySorted (fun a b => String.leb (fst a) (fst b) = true) l1 ->
  StronglySorted (fun a b => String.leb (fst a) (fst b) = true) l2 ->
  NoDup (map fst l1) -> Permutation l1 l2 -> l1 = l2.
Proof.
  intros H1. revert l2. induction H1 as [|a l1 Hs1 IH Hf1]; intros l2 H2 Hnd Hp.
  - symmetry. apply Permutation_nil. exact Hp.
  - destruct l2 as [|b l2]; [apply Permutation_sym, Permutation_nil_cons in Hp; contradiction|].
    inversion H2 as [|? ? Hs2 Hf2]; subst.
    inversion Hnd as [|? ? Hn1 Hnd']; subst.
    assert (Hb : In b (a :: l1)) by (apply (Permutation_in b (Permutation_sym Hp)); left; reflexivity).
    assert (Ha : In a (b :: l2)) by (apply (Permutation_in a Hp); left; reflexivity).
    destruct Hb as [Hb|Hb].
    + subst b. f_equal. apply IH; [exact Hs2|exact Hnd'|]. eapply Permutation_cons_inv. exact Hp.
    + destruct Ha as [Ha|Ha].
      * subst b. f_equal. apply IH; [exact Hs2|exact Hnd'|]. eapply Permutation_cons_inv. exact Hp.
      * rewrite Forall_forall in Hf1, Hf2.
        pose proof (String.leb_antisym _ _ (Hf1 b Hb) (Hf2 a Ha)) as E.
        exfalso. apply Hn1. rewrite E. apply in_map. exact Hb.
Qed.

Lemma In_lookupKey {A} (m : list (string * A)) k x :
  NoDup (map fst m) -> (In (k, x) m <-> lookupKey m k = Some x).
Proof.
  induction m as [|[k' y] m IH]; simpl; intros Hnd; [split; [contradiction|discriminate]|].
  inversion Hnd as [|? ? Hn1 Hnd']; subst.
  destruct (String.eqb k k') eqn:E.
  - apply String.eqb_eq in E; subst k'. split.
    + intros [H|H]; [congruence|]. exfalso. apply Hn1. change k with (fst (k, x)). apply in_map. exact H.
    + intros H; inversion H; subst. left. reflexivity.
  - apply String.eqb_neq in E. rewrite <- IH by exact Hnd'. split; [intros [H|H]; [congruence|exact H]|tauto].
Qed.

(** [json.Marshal] of a Go map depends only on the map's contents. *)
Lemma sortByKey_lookup_eq {A} (m1 m2 : list (string * A)) :
  NoDup (map fst m1) -> NoDup (map fst m2) ->
  (forall k, lookupKey m1 k = lookupKey m2 k) -> sortByKey m1 = sortByKey m2.
Proof.
  intros N1 N2 Hl.
  apply sorted_perm_eq; try apply sortByKey_sortedS.
  - eapply Permutation_NoDup; [symmetry; apply Permutation_map, sortByKey_perm|exact N1].
  - rewrite sortByKey_perm. symmetry. rewrite sortByKey_perm.
    apply NoDup_Permutation; try (eapply NoDup_map_inv; eassumption).
    intros [k x]. rewrite !In_lookupKey by assumption. rewrite Hl. tauto.
Qed.

Lemma NoDup_keys_setKey {A} (m : list (string * A)) k x :
  NoDup (map fst m) -> NoDup (map fst (setKey m k x)).
Proof.
  induction m as [|[k' y] m IH]; simpl; intros Hnd.
  - constructor; [simpl; tauto|constructor].
  - inversion Hnd as [|? ? Hn1 Hnd']; subst.
    destruct (String.eqb k k') eqn:E; simpl.
    + apply String.eqb_eq in E; subst k'. constructor; assumption.
    + apply String.eqb_neq in E. constructor; [|apply IH; exact Hnd'].
      rewrite In_keys_setKey. intros [H|H]; [congruence|tauto].
Qed.

Lemma stringifyMapKey_Ok k s : stringifyMapKey k = Ok s -> k = VStr s.
Proof. destruct k; simpl; congruence. Qed.

Section MapEntries.
Variable r : Resolver.
Variable e : ty.

(** One step of the map loop puts one key, computed from the entry alone. *)
Lemma mme_cons key value l acc out :
  marshalMapEntries r (marshal r) e ((key, value) :: l) acc = Ok out ->
  exists s a, key = VStr s /\
    (forall l0 acc0, marshalMapEntries r (marshal r) e ((key, value) :: l0) acc0 = marshalMapEntries r (marshal r) e l0 (setKey acc0 s a)) /\
    marshalMapEntries r (marshal r) e l (setKey acc s a) = Ok out.
Proof.
  simpl. destruct (stringifyMapKey key) as [s|e'|p] eqn:Hs; simpl; try discriminate.
  apply stringifyMapKey_Ok in Hs.
  destruct (marshal r value) as [b|e'|p]; simpl; try discriminate.
  destruct (isIface e), (unwrapIface value) as [x|]; simpl.
  - destruct (TypeIDOf r x) as [id|e'|p]; simpl; try discriminate.
    intros H. exists s, (TypeTagged id b). auto.
  - intros H. exists s, (PlainBytes b). auto.
  - intros H. exists s, (PlainBytes b). auto.
  - intros H. exists s, (PlainBytes b). auto.
Qed.

Lemma mme_resp l : forall acc1 acc2 out1,
  (forall s, lookupKey acc1 s = lookupKey acc2 s) ->
  marshalMapEntries r (marshal r) e l acc1 = Ok out1 ->
  exists out2, marshalMapEntries r (marshal r) e l acc2 = Ok out2 /\ forall s, lookupKey out1 s = lookupKey out2 s.
Proof.
  induction l as [|[key value] l IH]; intros acc1 acc2 out1 Hl H.
  - simpl in H. inversion H; subst. exists acc2. split; [reflexivity|exact Hl].
  - destruct (mme_cons key value l acc1 out1 H) as (s & a & _ & Hall & Hrest).
    rewrite Hall. apply (IH (setKey acc1 s a)); [|exact Hrest].
    intros k. rewrite !lookupKey_setKey, Hl. reflexivity.
Qed.

Lemma mme_NoDup l : forall acc out,
  NoDup (map fst acc) -> marshalMapEntries r (marshal r) e l acc = Ok out -> NoDup (map fst out).
Proof.
  induction l as [|[key value] l IH]; intros acc out Hnd H.
  - simpl in H. inversion H; subst. exact Hnd.
  - destruct (mme_cons key value l acc out H) as (s & a & _ & _ & Hrest).
    eapply IH; [apply NoDup_keys_setKey; exact Hnd|exact Hrest].
Qed.

Lemma mme_perm es es' : Permutation es es' -> NoDup (map fst es) ->
  forall acc out, marshalMapEntries r (marshal r) e es acc = Ok out ->
  exists out', marshalMapEntries r (marshal r) e es' acc = Ok out' /\ forall s, lookupKey out s = lookupKey out' s.
Proof.
  induction 1 as [|[key value] l l' Hp IH|[k1 v1] [k2 v2] l|l l' l'' Hp1 IH1 Hp2 IH2];
    intros Hnd acc out H.
  - exists out. split; [exact H|reflexivity].
  - destruct (mme_cons key value l acc out H) as (s & a & _ & Hall & Hrest).
    inversion Hnd; subst.
    destruct (IH ltac:(assumption) _ _ Hrest) as (out' & H' & Hl).
    exists out'. rewrite Hall. split; assumption.
  - destruct (mme_cons k2 v2 _ acc out H) as (s2 & a2 & E2 & Hall2 & Hrest2).
    destruct (mme_cons k1 v1 _ _ out Hrest2) as (s1 & a1 & E1 & Hall1 & Hrest1).
    rewrite Hall1, Hall2.
    simpl in Hnd. inversion Hnd as [|? ? Hn1 _]; subst.
    apply (mme_resp l (setKey (setKey acc s2 a2) s1 a1)); [|exact Hrest1].
    intros k. rewrite !lookupKey_setKey.
    destruct (String.eqb k s1) eqn:K1, (String.eqb k s2) eqn:K2; try reflexivity.
    apply String.eqb_eq in K1, K2. subst. exfalso. apply Hn1. left. reflexivity.
  - destruct (IH1 Hnd _ _ H) as (o1 & H1 & L1).
    assert (Hnd' : NoDup (map fst l')) by (eapply Permutation_NoDup; [apply Permutation_map; exact Hp1|exact Hnd]).
    destruct (IH2 Hnd' _ _ H1) as (o2 & H2 & L2).
    exists o2. split; [exact H2|]. intros s. rewrite L1, L2. reflexivity.
Qed.
End MapEntries.

(** X1: the encoding of a map does not depend on the order in which its
    entries are visited (Go ranges over a map in a random order): when the
    entries have distinct keys and one order encodes to [j], any other order
    encodes to the same [j]. *)
Theorem marshal_map_entry_order r k e es es' j :
  Permutation es es' -> NoDup (map fst es) ->
  marshal r (VMap k e (Some es)) = Ok j -> marshal r (VMap k e (Some es')) = Ok j.
Proof.
  intros Hp Hnd. simpl.
  destruct (marshalMapEntries r (marshal r) e es []) as [out| |] eqn:H; simpl; try discriminate.
  intros Hj. inversion Hj; subst.
  destruct (mme_perm r e es es' Hp Hnd [] out H) as (out' & H' & Hl).
  rewrite H'. simpl. unfold marshalFields.
  rewrite (sortByKey_lookup_eq out out'); [reflexivity| | |exact Hl];
    eapply mme_NoDup; try eassumption; constructor.
Qed.

(** X7: a destination that is not a pointer, and a non-nil pointer to an
    interface (a [*any], say), make [UnmarshalWithTypeIDs] fail with
    "expected a pointer destination", carrying the dynamic type: for a
    pointer to an interface, [unmarshal] recurses on the interface value
    itself, whose kind is not [Pointer], whatever it holds. *)
Theorem UnmarshalWithTypeIDs_wrong_shape ms r b :
  (forall w, (forall t p, w <> VPtr t p) ->
     UnmarshalWithTypeIDs ms b (Some w) r = Err (ENotPointer (dynTypeOf w))) /\
  (forall n ims x,
     UnmarshalWithTypeIDs ms b (Some (VPtr (TIface n ims) (Some x))) r = Err (ENotPointer (dynTypeOf x))).
Proof.
  split.
  - intros w Hw. unfold UnmarshalWithTypeIDs, unmarshal, unmarshalHandle.
    destruct w; try reflexivity. exfalso. eapply Hw. reflexivity.
  - intros n ims x. unfold UnmarshalWithTypeIDs, unmarshal, unmarshalHandle.
    destruct b; reflexivity.
Qed.

(** X8: a struct field or map value of pointer type decoded from [null]
    becomes the nil pointer; decoded from anything else, the content goes
    into the pointee the pointer already has, or into a fresh zero value
    when it is nil, and the slot points to the result. *)
Theorem pointer_slot_decode ms r u :
  (forall out, unmarshalTo ms r (decodeContent ms r) (decodeWrapped ms r) out (TPtr u) JNull =
               Ok (VPtr u None)) /\
  (forall p value, value <> JNull ->
     unmarshalTo ms r (decodeContent ms r) (decodeWrapped ms r) (VPtr u p) (TPtr u) value =
     wrap EUnmarshal (y <- decode ms r value u (Some (match p with Some x => x | None => zero u end)) true ;;
                      Ok (VPtr u (Some y)))).
Proof.
  split; [reflexivity|].
  intros p value Hv.
  assert (E : unmarshalTo ms r (decodeContent ms r) (decodeWrapped ms r) (VPtr u p) (TPtr u) value =
              wrap EUnmarshal (decodeContent ms r value (TPtr u) (VPtr u p)))
    by (destruct value; congruence || reflexivity).
  rewrite E. unfold decodeContent. rewrite decode_ptr. simpl.
  destruct p as [x|]; [reflexivity|]. rewrite decode_None_settable. reflexivity.
Qed.

(** X9: for the one-key wrapper [{typeID: content}] of an interface slot,
    an error of [NewByTypeID] fails with "unable to construct an instance of
    value for TypeID"; a nil answer makes the decoder panic ([Interface()]
    on the invalid [reflect.Value] while formatting the error); an answer
    that is not a pointer fails with "expected a pointer destination". *)
Theorem wrapper_resolver_failures ms r c out outType value typeID valueUnparsed :
  kindOf outType = KInterface -> value <> JNull -> gjsonMap value = [(typeID, valueUnparsed)] ->
  (forall e, NewByTypeID r typeID = Err e ->
     unmarshalTo ms r c (decodeWrapped ms r) out outType value = Err (ENewByTypeID typeID e)) /\
  (NewByTypeID r typeID = Ok None ->
     unmarshalTo ms r c (decodeWrapped ms r) out outType value = Panic zeroValueInterface) /\
  (forall w, NewByTypeID r typeID = Ok (Some w) -> (forall t p, w <> VPtr t p) ->
     unmarshalTo ms r c (decodeWrapped ms r) out outType value = Err (EUnmarshal (ENotPointer (dynTypeOf w)))).
Proof.
  intros Hk Hv Hm. destruct outType; try discriminate.
  rewrite !unmarshalTo_iface by exact Hv. cbv zeta. rewrite Hm. simpl Nat.eqb. cbv iota beta.
  rewrite !(withFirstMember_one _ _ _ _ _ Hm).
  repeat split.
  - intros e He. rewrite He. reflexivity.
  - intros He. rewrite He. reflexivity.
  - intros w He Hw. rewrite He. simpl.
    unfold decodeWrapped, unmarshal, unmarshalHandle.
    destruct w; try reflexivity. exfalso. eapply Hw. reflexivity.
Qed.

Lemma jsonFieldName_nonempty f : fName f <> "" -> jsonFieldName f <> "".
Proof.
  unfold jsonFieldName. destruct (Nat.ltb 0 (String.length (firstWord (fTag f)))) eqn:E; [|auto].
  intros _ H. rewrite H in E. discriminate.
Qed.

Lemma lastMatch_none fs key : Forall (fun f => jsonFieldName f <> key) fs -> lastMatch fs key = None.
Proof.
  induction 1 as [|f fs Hf _ IH]; simpl; [reflexivity|].
  rewrite IH. apply String.eqb_neq in Hf. rewrite Hf, andb_false_r. reflexivity.
Qed.

(** X11: decoding a JSON value that is not an object (a scalar, [null] or
    an array) into a struct succeeds and leaves the struct unchanged, when
    no field's name is empty (Go's never are): gjson's [ForEach] hands the
    iterator the empty key, which designates no field. *)
Theorem struct_ignores_non_object ms r n fs vs j s :
  (forall ps, j <> JObj ps) -> Forall (fun f => fName f <> "") fs ->
  decode ms r j (TStruct n fs) (Some (VStruct n fs vs)) s = Ok (VStruct n fs vs).
Proof.
  intros Hj Hfs.
  assert (Hn : lookupKey (buildIndexMap fs) "" = None).
  { rewrite lookupKey_buildIndexMap. apply lastMatch_none.
    eapply Forall_impl; [|exact Hfs]. intros f. apply jsonFieldName_nonempty. }
  assert (Hm : forall c w value, structMember ms r c w fs "" value vs = Ok vs)
    by (intros; unfold structMember; rewrite Hn; reflexivity).
  destruct j as [| | | |xs|ps]; [ | | | | |exfalso; eapply Hj; reflexivity];
    try (simpl; rewrite Hm; reflexivity).
  simpl. clear Hj. induction xs as [|x xs IH]; [reflexivity|].
  simpl. rewrite Hm. simpl. exact IH.
Qed.

(** [unmarshalTo] calls its first continuation on the member value only. *)
Lemma unmarshalTo_content_at ms r c c' w out t v :
  (forall t' o, c v t' o = c' v t' o) ->
  unmarshalTo ms r c w out t v = unmarshalTo ms r c' w out t v.
Proof. intros H. unfold unmarshalTo. destruct (kindOf t), v; rewrite ?H; reflexivity. Qed.

(** X13: decoding a JSON value that is neither an object nor an array
    ([null] included) into a [map[string]E] drops the map's entries and
    gives a one-entry map: its key is the empty string (gjson's [ForEach]
    hands the iterator the value itself with an empty key) and its value is
    the JSON value decoded into a zero [E], whose error, if any, is
    returned as the entry's error. *)
Theorem map_non_object_single_entry ms r et m j s :
  (forall ps, j <> JObj ps) -> (forall xs, j <> JArr xs) ->
  decode ms r j (TMap TString et) (Some (VMap TString et m)) s =
  (y <- wrap (EEntry j "") (unmarshalTo ms r (decodeContent ms r) (decodeWrapped ms r) (zero et) et j) ;;
   Ok (VMap TString et (Some [(VStr "", y)]))).
Proof.
  intros Ho Ha.
  destruct j as [| | | |xs|ps];
    [ | | | |exfalso; eapply Ha; reflexivity|exfalso; eapply Ho; reflexivity];
    simpl; unfold mapEntry; simpl;
    (rewrite (unmarshalTo_content_at ms r _ (decodeContent ms r)); [|intros; reflexivity]);
    destruct (unmarshalTo _ _ _ _ _ _ _); destruct m; reflexivity.
Qed.

Lemma updateField_Ok_inv k j fs vs vs' :
  updateField k j fs vs = Ok vs' ->
  exists f x x', nth_error fs j = Some f /\ nth_error vs j = Some x /\ k f x = Ok x' /\
                 vs' = setNth vs j x'.
Proof.
  revert j vs vs'. induction fs as [|f fs IH]; intros j vs vs' H; destruct vs as [|x vs];
    simpl in H; try discriminate.
  destruct j as [|j].
  - destruct (k f x) as [x'| |] eqn:E; simpl in H; try discriminate.
    injection H as <-. exists f, x, x'. auto.
  - destruct (updateField k j fs vs) as [r| |] eqn:E; simpl in H; try discriminate.
    injection H as <-. destruct (IH _ _ _ E) as (g & y & y' & H1 & H2 & H3 & ->).
    exists g, y, y'. auto.
Qed.

Lemma lastMatch_Some fs key i :
  lastMatch fs key = Some i -> exists g, nth_error fs i = Some g /\ fTag g <> "-" /\ jsonFieldName g = key.
Proof.
  revert i. induction fs as [|g fs IH]; intros i H; simpl in H; [discriminate|].
  destruct (lastMatch fs key) as [j|] eqn:E.
  - injection H as <-. exact (IH j eq_refl).
  - destruct (negb (String.eqb (fTag g) "-") && String.eqb (jsonFieldName g) key) eqn:Eg; [|discriminate].
    injection H as <-. apply andb_prop in Eg as [Eg1 Eg2].
    apply negb_true_iff, String.eqb_neq in Eg1. apply String.eqb_eq in Eg2.
    exists g. auto.
Qed.

Lemma structMembers_frame ms r c w fs i f :
  nth_error fs i = Some f ->
  forall ps vs vs',
  (fPkgPath f <> "" \/ fTag f = "-" \/ Forall (fun key => lastMatch fs key <> Some i) (map fst ps)) ->
  forEachMembers (structMember ms r c w fs) ps vs = Ok vs' ->
  nth_error vs' i = nth_error vs i.
Proof.
  intros Hf ps. induction ps as [|[key value] ps IH]; intros vs vs' Hi H; simpl in H.
  - injection H as <-. reflexivity.
  - destruct (structMember ms r c w fs key value vs) as [vs1| |] eqn:E; simpl in H; try discriminate.
    rewrite (IH vs1 vs'); [|destruct Hi as [Hi|[Hi|Hi]]; [left; exact Hi|right; left; exact Hi|inversion Hi; right; right; assumption]|exact H].
    unfold structMember in E.
    destruct (lookupKey (buildIndexMap fs) key) as [j|] eqn:Ej; [|injection E as <-; reflexivity].
    destruct (updateField_Ok_inv _ _ _ _ _ E) as (g & x & x' & Hg & Hx & Hk & ->).
    destruct (Nat.eq_dec j i) as [->|Hne]; [|apply nth_error_setNth_other; exact Hne].
    rewrite Hf in Hg. injection Hg as <-.
    destruct Hi as [Hp|[Ht|Hi]].
    + destruct f as [[[fn fp] ft] fty]. simpl in Hp, Hk.
      apply String.eqb_neq in Hp. rewrite Hp in Hk. simpl in Hk. injection Hk as <-.
      rewrite Hx. apply nth_error_setNth_same. apply nth_error_Some. congruence.
    + rewrite lookupKey_buildIndexMap in Ej. destruct (lastMatch_Some _ _ _ Ej) as (g & Hg & Hgt & _).
      rewrite Hf in Hg. injection Hg as <-. contradiction.
    + inversion Hi as [|? ? Hk0 _]; subst. rewrite lookupKey_buildIndexMap in Ej. contradiction.
Qed.

(** X10: decoding an object into a struct changes only the fields its keys
    designate: a field that is unexported, tagged ["-"], or not the field
    [indexMap] gives for any key of the object keeps its previous value
    (members with unknown keys are ignored), and the struct keeps its
    number of fields. *)
Theorem struct_decode_keeps_unaddressed ms r n fs vs ps s v :
  decode ms r (JObj ps) (TStruct n fs) (Some (VStruct n fs vs)) s = Ok v ->
  exists vs', v = VStruct n fs vs' /\ List.length vs' = List.length vs /\
    forall i f, nth_error fs i = Some f ->
      (fPkgPath f <> "" \/ fTag f = "-" \/ Forall (fun key => lastMatch fs key <> Some i) (map fst ps)) ->
      nth_error vs' i = nth_error vs i.
Proof.
  rewrite decode_struct_obj. simpl.
  destruct (forEachMembers (structMember ms r (decodeContent ms r) (decodeWrapped ms r) fs) ps vs)
    as [vs'| |] eqn:E; simpl; try discriminate.
  intros H. injection H as <-. exists vs'. split; [reflexivity|]. split.
  - eapply forEachMembers_structMember_length. exact E.
  - intros i f Hf Hi. eapply structMembers_frame; eassumption.
Qed.

Lemma keyEqb_sym a b : keyEqb a b = keyEqb b a.
Proof.
  destruct a, b; simpl; try reflexivity.
  - destruct b, b0; reflexivity.
  - apply Z.eqb_sym.
  - apply String.eqb_sym.
Qed.

Lemma mapIndex_mapSet es k x key :
  mapIndex (mapSet es k x) key = if keyEqb key k then Some x else mapIndex es key.
Proof.
  induction es as [|[k' y] es IH]; simpl; [reflexivity|].
  destruct (keyEqb k k') eqn:E; simpl.
  - apply keyEqb_eq in E. subst k'. destruct (keyEqb key k); reflexivity.
  - rewrite IH. destruct (keyEqb key k') eqn:E2; [|reflexivity].
    apply keyEqb_eq in E2. subst key. rewrite keyEqb_sym, E. reflexivity.
Qed.

Lemma NoDup_mapSet es k x :
  keyEqb k k = true -> NoDup (map fst es) -> NoDup (map fst (mapSet es k x)).
Proof.
  intros Hk. induction es as [|[k' y] es IH]; simpl; intros Hnd.
  - constructor; [simpl; tauto|constructor].
  - inversion Hnd as [|? ? Hn1 Hnd']; subst.
    destruct (keyEqb k k') eqn:E; simpl.
    + apply keyEqb_eq in E. subst k'. constructor; assumption.
    + constructor; [|apply IH; exact Hnd'].
      rewrite In_keys_mapSet. intros [H|H]; [subst k'; congruence|tauto].
Qed.

Lemma mapEntry_string ms r c w et key value m m' :
  mapEntry ms r c w TString et key value m = Ok m' ->
  exists y, wrap (EEntry value key) (unmarshalTo ms r c w (zero et) et value) = Ok y /\
    m' = Some (mapSet (match m with Some es => es | None => [] end) (VStr key) y).
Proof.
  unfold mapEntry. simpl.
  destruct (wrap (EEntry value key) (unmarshalTo ms r c w (zero et) et value)) as [y| |];
    simpl; try discriminate.
  intros H. injection H as <-. eauto.
Qed.

Lemma mapEntries_keep ms r c w et key y : forall post m m',
  ~ In key (map fst post) ->
  (exists es, m = Some es /\ mapIndex es (VStr key) = Some y) ->
  forEachMembers (mapEntry ms r c w TString et) post m = Ok m' ->
  exists es, m' = Some es /\ mapIndex es (VStr key) = Some y.
Proof.
  induction post as [|[k value] post IH]; intros m m' Hn Hm H; simpl in H.
  - injection H as <-. exact Hm.
  - destruct (mapEntry ms r c w TString et k value m) as [m1| |] eqn:E; simpl in H; try discriminate.
    apply (IH m1); [simpl in Hn; tauto| |exact H].
    destruct (mapEntry_string _ _ _ _ _ _ _ _ _ E) as (z & _ & ->).
    destruct Hm as (es & -> & Hes). eexists; split; [reflexivity|].
    rewrite mapIndex_mapSet. simpl. destruct (String.eqb key k) eqn:Ek; [|exact Hes].
    apply String.eqb_eq in Ek. subst k. simpl in Hn. tauto.
Qed.

Lemma mapEntries_NoDup ms r c w et : forall ps m m',
  NoDup (mapKeys m) ->
  forEachMembers (mapEntry ms r c w TString et) ps m = Ok m' -> NoDup (mapKeys m').
Proof.
  induction ps as [|[k value] ps IH]; intros m m' Hnd H; simpl in H.
  - injection H as <-. exact Hnd.
  - destruct (mapEntry ms r c w TString et k value m) as [m1| |] eqn:E; simpl in H; try discriminate.
    apply (IH m1); [|exact H].
    destruct (mapEntry_string _ _ _ _ _ _ _ _ _ E) as (z & _ & ->). simpl.
    apply NoDup_mapSet; [apply String.eqb_refl|]. destruct m; [exact Hnd|constructor].
Qed.

(** X12: decoding an object into a [map[string]E] gives a map without
    duplicate keys in which each key of the object holds the decoding of the
    object's last member with that key; earlier members with the same key
    are overwritten. *)
Theorem map_decode_last_member_wins ms r et m ps s v :
  decode ms r (JObj ps) (TMap TString et) (Some (VMap TString et m)) s = Ok v ->
  exists m', v = VMap TString et m' /\ NoDup (mapKeys m') /\
    forall pre key value post, ps = (pre ++ (key, value) :: post)%list -> ~ In key (map fst post) ->
      exists es y, m' = Some es /\ mapIndex es (VStr key) = Some y /\
        unmarshalTo ms r (decodeContent ms r) (decodeWrapped ms r) (zero et) et value = Ok y.
Proof.
  rewrite decode_map_obj. simpl bind. cbv zeta.
  set (m0 := match VMap TString et m with VMap _ _ (Some _) => Some ([] : list (val * val)) | _ => None end).
  destruct (forEachMembers (mapEntry ms r (decodeContent ms r) (decodeWrapped ms r) TString et) ps m0)
    as [m'| |] eqn:E; simpl; try discriminate.
  intros H. injection H as <-. exists m'. split; [reflexivity|]. split.
  - eapply mapEntries_NoDup; [|exact E]. subst m0. destruct m; constructor.
  - intros pre key value post -> Hn.
    rewrite forEachMembers_app in E.
    destruct (forEachMembers (mapEntry ms r (decodeContent ms r) (decodeWrapped ms r) TString et) pre m0)
      as [m1| |]; simpl in E; try discriminate.
    destruct (mapEntry ms r (decodeContent ms r) (decodeWrapped ms r) TString et key value m1)
      as [m2| |] eqn:E2; simpl in E; try discriminate.
    destruct (mapEntry_string _ _ _ _ _ _ _ _ _ E2) as (y & Hy & ->).
    destruct (unmarshalTo ms r (decodeContent ms r) (decodeWrapped ms r) (zero et) et value)
      as [y'| |] eqn:Ey; simpl in Hy; try discriminate.
    injection Hy as <-.
    set (es2 := mapSet (match m1 with Some es => es | None => [] end) (VStr key) y') in E.
    assert (H2 : exists es, Some es2 = Some es /\ mapIndex es (VStr key) = Some y').
    { exists es2. split; [reflexivity|]. subst es2. rewrite mapIndex_mapSet. unfold keyEqb.
      rewrite String.eqb_refl. reflexivity. }
    destruct (mapEntries_keep ms r _ _ et key y' post _ _ Hn H2 E) as (es & He & Hes).
    exists es, y'. auto.
Qed.

Lemma strictKeys_of_sorted {A} (l : list (string * A)) :
  StronglySorted (fun a b => String.leb (fst a) (fst b) = true) l -> NoDup (map fst l) -> strictKeys l.
Proof.
  unfold strictKeys. induction 1 as [|p l Hs IH Hf]; simpl; intros Hnd; constructor.
  - inversion Hnd; auto.
  - inversion Hnd as [|? ? Hn1 _]; subst. rewrite Forall_forall in Hf |- *.
    intros q Hq. split; [apply Hf; exact Hq|]. intros E. apply Hn1. rewrite E. apply in_map. exact Hq.
Qed.

Lemma lookupKey_map {A B} (g : A -> B) (l : list (string * A)) k :
  lookupKey (map (fun p => (fst p, g (snd p))) l) k = option_map g (lookupKey l k).
Proof.
  induction l as [|[k' x] l IH]; simpl; [reflexivity|].
  destruct (String.eqb k k'); [reflexivity|exact IH].
Qed.

Lemma lookupKey_sortByKey {A} (l : list (string * A)) k :
  NoDup (map fst l) -> lookupKey (sortByKey l) k = lookupKey l k.
Proof.
  intros Hnd.
  assert (Hnd' : NoDup (map fst (sortByKey l)))
    by (eapply Permutation_NoDup; [symmetry; apply Permutation_map, sortByKey_perm|exact Hnd]).
  destruct (lookupKey l k) as [x|] eqn:E.
  - apply In_lookupKey; [exact Hnd'|]. eapply Permutation_in; [symmetry; apply sortByKey_perm|].
    apply In_lookupKey; assumption.
  - destruct (lookupKey (sortByKey l) k) as [y|] eqn:E2; [|reflexivity].
    apply In_lookupKey in E2; [|exact Hnd'].
    apply (Permutation_in _ (sortByKey_perm l)) in E2. apply In_lookupKey in E2; [congruence|exact Hnd].
Qed.

(** [json.Marshal] of the collected members: an object with strictly
    increasing keys, holding the members' encodings. *)
Lemma marshalFields_strict fs :
  NoDup (map fst fs) ->
  exists ps, marshalFields fs = JObj ps /\ strictKeys ps /\
    (forall k, In k (map fst ps) <-> In k (map fst fs)) /\
    (forall k, lookupKey ps k = option_map marshalAnyField (lookupKey fs k)).
Proof.
  intros Hnd. eexists. split; [reflexivity|]. split; [|split].
  - apply strictKeys_of_sorted.
    + apply (StronglySorted_map_fst (fun a b => String.leb a b = true)). apply sortByKey_sortedS.
    + rewrite map_map. simpl. change (map (fun x => fst x) (sortByKey fs)) with (map fst (sortByKey fs)).
      eapply Permutation_NoDup; [symmetry; apply Permutation_map, sortByKey_perm|exact Hnd].
  - intros k. rewrite map_map. simpl. change (map (fun x => fst x) (sortByKey fs)) with (map fst (sortByKey fs)).
    split; intros H; eapply Permutation_in; try exact H;
      [apply Permutation_map, sortByKey_perm|symmetry; apply Permutation_map, sortByKey_perm].
  - intros k. rewrite lookupKey_map, lookupKey_sortByKey by exact Hnd. reflexivity.
Qed.

Lemma marshalStructFields_names r n fs0 l : forall xs i acc acc',
  marshalStructFields r (marshal r) n fs0 i l xs acc = Ok acc' ->
  NoDup (map fst acc) ->
  NoDup (map fst acc') /\
  forall k, In k (map fst acc') -> In k (map fst acc) \/
    exists f, In f l /\ fPkgPath f = "" /\ fTag f <> "-" /\ jsonFieldName f = k.
Proof.
  induction l as [|f l IH]; intros xs i acc acc' H Hnd; destruct xs as [|x xs]; simpl in H;
    try (injection H as <-; split; [exact Hnd|auto]).
  destruct (String.eqb (fPkgPath f) "") eqn:Ep; simpl in H.
  2:{ destruct (IH _ _ _ _ H Hnd) as [H1 H2]. split; [exact H1|].
      intros k Hk. destruct (H2 k Hk) as [?|(g & ? & ?)]; [auto|right; exists g; simpl; auto]. }
  destruct (String.eqb (fTag f) "-") eqn:Et.
  { destruct (IH _ _ _ _ H Hnd) as [H1 H2]. split; [exact H1|].
    intros k Hk. destruct (H2 k Hk) as [?|(g & ? & ?)]; [auto|right; exists g; simpl; auto]. }
  destruct (marshal r x) as [b| |]; simpl in H; try discriminate.
  assert (Step : exists X, marshalStructFields r (marshal r) n fs0 (S i) l xs
                             (setKey acc (jsonFieldName f) X) = Ok acc').
  { destruct (isIface (fType f)), (unwrapIface x) as [y|]; eauto.
    destruct (TypeIDOf r y); simpl in H; try discriminate. eauto. }
  destruct Step as [X HX].
  destruct (IH _ _ _ _ HX (NoDup_keys_setKey _ _ _ Hnd)) as [H1 H2]. split; [exact H1|].
  intros k Hk. destruct (H2 k Hk) as [Hin|(g & ? & ?)].
  - apply In_keys_setKey in Hin as [->|Hin]; [|auto].
    right. exists f. apply String.eqb_eq in Ep. apply String.eqb_neq in Et. simpl. auto.
  - right. exists g. simpl. auto.
Qed.

(** X4: the members of a struct's encoding come in strictly increasing key
    order, without duplicates, and each is named by the wire name of an
    exported field not tagged ["-"]: unexported and skipped fields never
    appear. *)
Theorem struct_encoding_keys r n fs vs j :
  marshal r (VStruct n fs vs) = Ok j ->
  exists ps, j = JObj ps /\ strictKeys ps /\
    forall k, In k (map fst ps) ->
      exists f, In f fs /\ fPkgPath f = "" /\ fTag f <> "-" /\ jsonFieldName f = k.
Proof.
  simpl. destruct (marshalStructFields r (marshal r) n fs 0 fs vs []) as [acc| |] eqn:E;
    simpl; try discriminate.
  intros H. injection H as <-.
  destruct (marshalStructFields_names r n fs fs vs 0 [] acc E (NoDup_nil _)) as [Hnd Hk].
  destruct (marshalFields_strict acc Hnd) as (ps & Hps & Hs & Hin & _).
  exists ps. split; [exact Hps|]. split; [exact Hs|].
  intros k Hk'. apply Hin in Hk'. destruct (Hk k Hk') as [[]|H]. exact H.
Qed.

Lemma mme_keys r e l : forall acc out,
  marshalMapEntries r (marshal r) e l acc = Ok out ->
  forall s, In s (map fst out) <-> In s (map fst acc) \/ In (VStr s) (map fst l).
Proof.
  induction l as [|[key value] l IH]; intros acc out H s.
  - simpl in H. injection H as <-. simpl. tauto.
  - destruct (mme_cons r e key value l acc out H) as (s0 & a & -> & _ & Hrest).
    rewrite (IH _ _ Hrest s), In_keys_setKey. simpl.
    split; [intros [[->|?]|?]; auto|intros [?|[E|?]]; auto]. injection E as ->. auto.
Qed.

(** X2: a map's encoding is an object whose member names are exactly the
    map's string keys, in strictly increasing order; a nil map is encoded as
    the empty object. *)
Theorem map_encoding_keys r k e m j :
  marshal r (VMap k e m) = Ok j ->
  exists ps, j = JObj ps /\ strictKeys ps /\
    forall s, In s (map fst ps) <-> In (VStr s) (mapKeys m).
Proof.
  destruct m as [es|].
  2:{ simpl. intros H. injection H as <-. exists []. split; [reflexivity|]. split; [constructor|].
      simpl. tauto. }
  simpl. destruct (marshalMapEntries r (marshal r) e es []) as [acc| |] eqn:E; simpl; try discriminate.
  intros H. injection H as <-.
  assert (Hnd : NoDup (map fst acc)) by exact (mme_NoDup r e es [] acc (NoDup_nil _) E).
  destruct (marshalFields_strict acc Hnd) as (ps & Hps & Hs & Hin & _).
  exists ps. split; [exact Hps|]. split; [exact Hs|].
  intros s. rewrite Hin, (mme_keys r e es [] acc E s). simpl. tauto.
Qed.

Lemma marshalStructFields_cons r n fs0 i f l x xs acc acc' :
  marshalStructFields r (marshal r) n fs0 i (f :: l) (x :: xs) acc = Ok acc' ->
  exists acc1, marshalStructFields r (marshal r) n fs0 (S i) l xs acc1 = Ok acc' /\
    (forall k, k <> jsonFieldName f -> lookupKey acc1 k = lookupKey acc k).
Proof.
  simpl. destruct (String.eqb (fPkgPath f) "") eqn:Ep; simpl; [|eauto].
  destruct (String.eqb (fTag f) "-"); [eauto|].
  destruct (marshal r x) as [b| |]; simpl; try discriminate.
  assert (Hk : forall X k, k <> jsonFieldName f -> lookupKey (setKey acc (jsonFieldName f) X) k = lookupKey acc k).
  { intros X k Hk. rewrite lookupKey_setKey. apply String.eqb_neq in Hk. rewrite Hk. reflexivity. }
  destruct (isIface (fType f)), (unwrapIface x) as [y|]; try (intros H; eexists; split; [exact H|apply Hk]).
  destruct (TypeIDOf r y); simpl; try discriminate.
  intros H; eexists; split; [exact H|apply Hk].
Qed.

Lemma marshalStructFields_keep r n fs0 l : forall xs i acc acc' k,
  marshalStructFields r (marshal r) n fs0 i l xs acc = Ok acc' ->
  (forall g, In g l -> fPkgPath g = "" -> fTag g <> "-" -> jsonFieldName g <> k) ->
  lookupKey acc' k = lookupKey acc k.
Proof.
  induction l as [|f l IH]; intros xs i acc acc' k H Hl; destruct xs as [|x xs];
    try (simpl in H; injection H as <-; reflexivity).
  assert (Hne : fPkgPath f = "" -> fTag f <> "-" -> jsonFieldName f <> k) by (apply Hl; left; reflexivity).
  simpl in H. destruct (String.eqb (fPkgPath f) "") eqn:Ep; simpl in H.
  2:{ apply (IH _ _ _ _ _ H). intros g Hg. apply Hl. right. exact Hg. }
  destruct (String.eqb (fTag f) "-") eqn:Et.
  { apply (IH _ _ _ _ _ H). intros g Hg. apply Hl. right. exact Hg. }
  apply String.eqb_eq in Ep. apply String.eqb_neq in Et.
  specialize (Hne Ep Et).
  destruct (marshal r x) as [b| |]; simpl in H; try discriminate.
  assert (Step : exists X, marshalStructFields r (marshal r) n fs0 (S i) l xs
                             (setKey acc (jsonFieldName f) X) = Ok acc').
  { destruct (isIface (fType f)), (unwrapIface x) as [y|]; eauto.
    destruct (TypeIDOf r y); simpl in H; try discriminate. eauto. }
  destruct Step as [X HX].
  rewrite (IH _ _ _ _ _ HX) by (intros g Hg; apply Hl; right; exact Hg).
  rewrite lookupKey_setKey. destruct (String.eqb k (jsonFieldName f)) eqn:E; [|reflexivity].
  apply String.eqb_eq in E. congruence.
Qed.

Lemma marshalStructFields_member r n fs0 l : forall xs i acc acc' j f x,
  marshalStructFields r (marshal r) n fs0 i l xs acc = Ok acc' ->
  nth_error l j = Some f -> nth_error xs j = Some x ->
  fPkgPath f = "" -> fTag f <> "-" ->
  (forall j' g, j < j' -> nth_error l j' = Some g -> fPkgPath g = "" -> fTag g <> "-" ->
     jsonFieldName g <> jsonFieldName f) ->
  exists b, marshal r x = Ok b /\
    ((isIface (fType f) = false \/ unwrapIface x = None) ->
       lookupKey acc' (jsonFieldName f) = Some (RawMessage b)) /\
    (forall y, isIface (fType f) = true -> unwrapIface x = Some y ->
       exists id, TypeIDOf r y = Ok id /\ lookupKey acc' (jsonFieldName f) = Some (TypeTagged id b)).
Proof.
  induction l as [|f0 l IH]; intros xs i acc acc' j f x H Hf Hx Hp Ht Hlater;
    [destruct j; discriminate|].
  destruct xs as [|x0 xs]; [destruct j; discriminate|].
  destruct j as [|j].
  - simpl in Hf, Hx. injection Hf as <-. injection Hx as <-.
    assert (Hrest : forall g, In g l -> fPkgPath g = "" -> fTag g <> "-" -> jsonFieldName g <> jsonFieldName f0).
    { intros g Hg. destruct (In_nth_error _ _ Hg) as [j' Hj']. apply (Hlater (S j')); [lia|exact Hj']. }
    simpl in H. rewrite Hp in H. simpl in H. apply String.eqb_neq in Ht. rewrite Ht in H.
    destruct (marshal r x0) as [b| |]; simpl in H; try discriminate.
    exists b. split; [reflexivity|].
    destruct (isIface (fType f0)) eqn:Ei, (unwrapIface x0) as [y|] eqn:Eu.
    + destruct (TypeIDOf r y) as [id| |] eqn:Eid; simpl in H; try discriminate.
      rewrite (marshalStructFields_keep _ _ _ _ _ _ _ _ _ H Hrest), lookupKey_setKey, String.eqb_refl.
      split; [intros [?|?]; discriminate|]. intros y' _ Hy'. injection Hy' as <-. eauto.
    + rewrite (marshalStructFields_keep _ _ _ _ _ _ _ _ _ H Hrest), lookupKey_setKey, String.eqb_refl.
      split; [reflexivity|]. intros y' _ Hy'. discriminate.
    + rewrite (marshalStructFields_keep _ _ _ _ _ _ _ _ _ H Hrest), lookupKey_setKey, String.eqb_refl.
      split; [reflexivity|]. intros y' Hy' _. discriminate.
    + rewrite (marshalStructFields_keep _ _ _ _ _ _ _ _ _ H Hrest), lookupKey_setKey, String.eqb_refl.
      split; [reflexivity|]. intros y' Hy' _. discriminate.
  - simpl in Hf, Hx.
    destruct (marshalStructFields_cons _ _ _ _ _ _ _ _ _ _ H) as (acc1 & H1 & _).
    apply (IH xs (S i) acc1 acc' j f x H1 Hf Hx Hp Ht).
    intros j' g Hj' Hg. apply (Hlater (S j')); [lia|exact Hg].
Qed.

(** X5: an exported field not tagged ["-"], when no later such field has
    the same wire name, is written under its wire name as its own encoding,
    or, for a field of interface type holding a dynamic value [y], as the
    one-member object [{TypeIDOf(y): encoding}]. *)
Theorem struct_member_of_field r n fs vs j i f x :
  marshal r (VStruct n fs vs) = Ok j ->
  nth_error fs i = Some f -> nth_error vs i = Some x ->
  fPkgPath f = "" -> fTag f <> "-" ->
  (forall i' g, i < i' -> nth_error fs i' = Some g -> fPkgPath g = "" -> fTag g <> "-" ->
     jsonFieldName g <> jsonFieldName f) ->
  exists ps b, j = JObj ps /\ marshal r x = Ok b /\
    ((isIface (fType f) = false \/ unwrapIface x = None) ->
       lookupKey ps (jsonFieldName f) = Some b) /\
    (forall y, isIface (fType f) = true -> unwrapIface x = Some y ->
       exists id, TypeIDOf r y = Ok id /\ lookupKey ps (jsonFieldName f) = Some (JObj [(id, b)])).
Proof.
  intros H Hf Hx Hp Ht Hlater. simpl in H.
  destruct (marshalStructFields r (marshal r) n fs 0 fs vs []) as [acc| |] eqn:E;
    simpl in H; try discriminate.
  injection H as <-.
  destruct (marshalStructFields_names r n fs fs vs 0 [] acc E (NoDup_nil _)) as [Hnd _].
  destruct (marshalFields_strict acc Hnd) as (ps & Hps & _ & _ & Hl).
  destruct (marshalStructFields_member r n fs fs vs 0 [] acc i f x E Hf Hx Hp Ht Hlater)
    as (b & Hb & H1 & H2).
  exists ps, b. split; [exact Hps|]. split; [exact Hb|]. split.
  - intros C. rewrite Hl, (H1 C). reflexivity.
  - intros y Hi Hu. destruct (H2 y Hi Hu) as (id & Hid & Hk).
    exists id. split; [exact Hid|]. rewrite Hl, Hk. reflexivity.
Qed.

Lemma mme_keep r e l : forall acc out s,
  marshalMapEntries r (marshal r) e l acc = Ok out -> ~ In (VStr s) (map fst l) ->
  lookupKey out s = lookupKey acc s.
Proof.
  induction l as [|[key value] l IH]; intros acc out s H Hn.
  - simpl in H. injection H as <-. reflexivity.
  - destruct (mme_cons r e key value l acc out H) as (s0 & a & -> & _ & Hrest).
    rewrite (IH _ _ _ Hrest) by (simpl in Hn; tauto).
    rewrite lookupKey_setKey. destruct (String.eqb s s0) eqn:E; [|reflexivity].
    apply String.eqb_eq in E. subst. simpl in Hn. tauto.
Qed.

Lemma mme_iface_member r e l : forall acc out s v y,
  isIface e = true -> NoDup (map fst l) -> In (VStr s, v) l -> unwrapIface v = Some y ->
  marshalMapEntries r (marshal r) e l acc = Ok out ->
  exists b id, marshal r v = Ok b /\ TypeIDOf r y = Ok id /\ lookupKey out s = Some (TypeTagged id b).
Proof.
  induction l as [|[key value] l IH]; intros acc out s v y He Hnd Hin Hy H; [destruct Hin|].
  inversion Hnd as [|? ? Hn1 Hnd']; subst.
  destruct Hin as [Heq|Hin].
  - injection Heq as Hk Hv. subst key value.
    simpl in H. destruct (marshal r v) as [b| |]; simpl in H; try discriminate.
    rewrite He, Hy in H. destruct (TypeIDOf r y) as [id| |]; simpl in H; try discriminate.
    exists b, id. split; [reflexivity|]. split; [reflexivity|].
    rewrite (mme_keep _ _ _ _ _ _ H Hn1), lookupKey_setKey, String.eqb_refl. reflexivity.
  - destruct (mme_cons r e key value l acc out H) as (s0 & a & _ & _ & Hrest).
    exact (IH _ _ _ _ _ He Hnd' Hin Hy Hrest).
Qed.

(** X3: in a map whose value type is an interface, an entry holding a
    dynamic value [y] is written as the one-member object
    [{TypeIDOf(y): encoding}], the encoding being that of the entry's value. *)
Theorem map_interface_member r k e es j s v y :
  isIface e = true -> NoDup (map fst es) -> In (VStr s, v) es -> unwrapIface v = Some y ->
  marshal r (VMap k e (Some es)) = Ok j ->
  exists ps b id, j = JObj ps /\ marshal r v = Ok b /\ TypeIDOf r y = Ok id /\
    lookupKey ps s = Some (JObj [(id, b)]).
Proof.
  intros He Hnd Hin Hy. simpl.
  destruct (marshalMapEntries r (marshal r) e es []) as [acc| |] eqn:E; simpl; try discriminate.
  intros H. injection H as <-.
  assert (Hnd' : NoDup (map fst acc)) by exact (mme_NoDup r e es [] acc (NoDup_nil _) E).
  destruct (marshalFields_strict acc Hnd') as (ps & Hps & _ & _ & Hl).
  destruct (mme_iface_member r e es [] acc s v y He Hnd Hin Hy E) as (b & id & Hb & Hid & Hk).
  exists ps, b, id. repeat split; try assumption. rewrite Hl, Hk. reflexivity.
Qed.

Lemma marshalStructFields_ok r n fs0 l : forall xs i acc acc' j f x,
  marshalStructFields r (marshal r) n fs0 i l xs acc = Ok acc' ->
  nth_error l j = Some f -> nth_error xs j = Some x -> fPkgPath f = "" -> fTag f <> "-" ->
  (exists b, marshal r x = Ok b) /\
  (forall y, isIface (fType f) = true -> unwrapIface x = Some y -> exists id, TypeIDOf r y = Ok id).
Proof.
  induction l as [|f0 l IH]; intros xs i acc acc' j f x H Hf Hx Hp Ht; [destruct j; discriminate|].
  destruct xs as [|x0 xs]; [destruct j; discriminate|].
  destruct j as [|j].
  - simpl in Hf, Hx. injection Hf as <-. injection Hx as <-.
    simpl in H. rewrite Hp in H. simpl in H. apply String.eqb_neq in Ht. rewrite Ht in H.
    destruct (marshal r x0) as [b| |]; simpl in H; try discriminate.
    split; [eauto|]. intros y Hi Hu. rewrite Hi, Hu in H.
    destruct (TypeIDOf r y); simpl in H; try discriminate. eauto.
  - destruct (marshalStructFields_cons _ _ _ _ _ _ _ _ _ _ H) as (acc1 & H1 & _).
    exact (IH xs (S i) acc1 acc' j f x H1 Hf Hx Hp Ht).
Qed.

Lemma mme_ok r e l : forall acc out key v,
  marshalMapEntries r (marshal r) e l acc = Ok out -> In (key, v) l ->
  (exists s, key = VStr s) /\ (exists b, marshal r v = Ok b) /\
  (isIface e = true -> forall y, unwrapIface v = Some y -> exists id, TypeIDOf r y = Ok id).
Proof.
  induction l as [|[key0 value] l IH]; intros acc out key v H Hin; [destruct Hin|].
  destruct Hin as [Heq|Hin].
  - injection Heq as <- <-. simpl in H.
    destruct (stringifyMapKey key0) as [s| |] eqn:Hs; simpl in H; try discriminate.
    apply stringifyMapKey_Ok in Hs.
    destruct (marshal r value) as [b| |]; simpl in H; try discriminate.
    split; [eauto|]. split; [eauto|]. intros He y Hu. rewrite He, Hu in H.
    destruct (TypeIDOf r y); simpl in H; try discriminate. eauto.
  - destruct (mme_cons r e key0 value l acc out H) as (s0 & a & _ & _ & Hrest).
    exact (IH _ _ _ _ Hrest Hin).
Qed.

(** X6: encoding drops nothing it cannot encode: when a struct or a map is
    encoded successfully, every exported field not tagged ["-"] and every
    map entry was encoded, every map key is a string, and the resolver gave
    a TypeID for the dynamic value of every interface field or entry. *)
Theorem encoding_fails_on_any_failing_member r :
  (forall n fs vs j i f x, marshal r (VStruct n fs vs) = Ok j ->
     nth_error fs i = Some f -> nth_error vs i = Some x -> fPkgPath f = "" -> fTag f <> "-" ->
     (exists b, marshal r x = Ok b) /\
     (forall y, isIface (fType f) = true -> unwrapIface x = Some y -> exists id, TypeIDOf r y = Ok id)) /\
  (forall k e es j key v, marshal r (VMap k e (Some es)) = Ok j -> In (key, v) es ->
     (exists s, key = VStr s) /\ (exists b, marshal r v = Ok b) /\
     (isIface e = true -> forall y, unwrapIface v = Some y -> exists id, TypeIDOf r y = Ok id)).
Proof.
  split.
  - intros n fs vs j i f x H. simpl in H.
    destruct (marshalStructFields r (marshal r) n fs 0 fs vs []) as [acc| |] eqn:E;
      simpl in H; try discriminate.
    intros. eapply marshalStructFields_ok; eassumption.
  - intros k e es j key v H. simpl in H.
    destruct (marshalMapEntries r (marshal r) e es []) as [acc| |] eqn:E; simpl in H; try discriminate.
    intros Hin. eapply mme_ok; eassumption.
Qed.

Lemma marshal_map_entry_order_witness :
  marshal (registry []) (VMap TString TInt (Some [(VStr "a", VInt 1); (VStr "b", VInt 2)])) =
    Ok (JObj [("a", JStr "MQ=="); ("b", JStr "Mg==")]).
Proof.
  apply (marshal_map_entry_order (registry []) TString TInt [(VStr "b", VInt 2); (VStr "a", VInt 1)]).
  - apply perm_swap.
  - simpl. constructor; [simpl; intros [H|[]]; discriminate|constructor; [intros []|constructor]].
  - vm_compute. reflexivity.
Defined.

Lemma map_encoding_keys_witness :
  exists ps, JObj [("a", JStr "MQ=="); ("b", JStr "Mg==")] = JObj ps /\ strictKeys ps /\
    forall s, In s (map fst ps) <-> In (VStr s) (mapKeys (Some [(VStr "b", VInt 2); (VStr "a", VInt 1)])).
Proof.
  apply (map_encoding_keys (registry []) TString TInt (Some [(VStr "b", VInt 2); (VStr "a", VInt 1)])).
  vm_compute. reflexivity.
Defined.

Lemma map_interface_member_witness :
  exists ps b id, JObj [("k", JObj [("int", JNum 2)])] = JObj ps /\
    marshal (registry [("int", TInt)]) (VIface anyName [] (Some (VInt 2))) = Ok b /\
    TypeIDOf (registry [("int", TInt)]) (VInt 2) = Ok id /\
    lookupKey ps "k" = Some (JObj [(id, b)]).
Proof.
  apply (map_interface_member (registry [("int", TInt)]) TString anyTy
           [(VStr "k", VIface anyName [] (Some (VInt 2)))]).
  - reflexivity.
  - constructor; [intros []|constructor].
  - left. reflexivity.
  - reflexivity.
  - vm_compute. reflexivity.
Defined.

Lemma struct_encoding_keys_witness :
  exists ps, JObj [("A", JNum 1); ("B", JNum 2)] = JObj ps /\ strictKeys ps /\
    forall k, In k (map fst ps) ->
      exists f, In f [("B", "", "", TInt); ("A", "", "", TInt); ("c", "main", "", TInt); ("D", "", "-", TInt)] /\
        fPkgPath f = "" /\ fTag f <> "-" /\ jsonFieldName f = k.
Proof.
  apply (struct_encoding_keys (registry []) "S"
           [("B", "", "", TInt); ("A", "", "", TInt); ("c", "main", "", TInt); ("D", "", "-", TInt)]
           [VInt 2; VInt 1; VInt 3; VInt 4]).
  vm_compute. reflexivity.
Defined.

Lemma struct_member_of_field_witness :
  exists ps b, JObj [("x", JObj [("int", JNum 2)])] = JObj ps /\
    marshal (registry [("int", TInt)]) (VIface anyName [] (Some (VInt 2))) = Ok b /\
    ((isIface anyTy = false \/ unwrapIface (VIface anyName [] (Some (VInt 2))) = None) ->
       lookupKey ps "x" = Some b) /\
    (forall y, isIface anyTy = true -> unwrapIface (VIface anyName [] (Some (VInt 2))) = Some y ->
       exists id, TypeIDOf (registry [("int", TInt)]) y = Ok id /\ lookupKey ps "x" = Some (JObj [(id, b)])).
Proof.
  apply (struct_member_of_field (registry [("int", TInt)]) "S" [("A", "", "x", TInt); ("B", "", "x", anyTy)]
           [VInt 1; VIface anyName [] (Some (VInt 2))] (JObj [("x", JObj [("int", JNum 2)])]) 1
           ("B", "", "x", anyTy)).
  - vm_compute. reflexivity.
  - reflexivity.
  - reflexivity.
  - reflexivity.
  - discriminate.
  - intros i' g Hi Hg. destruct i' as [|[|i']]; [lia|lia|destruct i'; simpl in Hg; discriminate Hg].
Defined.

Lemma encoding_fails_on_any_failing_member_witness :
  ((exists b, marshal (registry []) (VInt 1) = Ok b) /\
   (forall y, isIface TInt = true -> unwrapIface (VInt 1) = Some y -> exists id, TypeIDOf (registry []) y = Ok id)) /\
  ((exists s, VStr "k" = VStr s) /\ (exists b, marshal (registry []) (VInt 1) = Ok b) /\
   (isIface TInt = true -> forall y, unwrapIface (VInt 1) = Some y -> exists id, TypeIDOf (registry []) y = Ok id)).
Proof.
  destruct (encoding_fails_on_any_failing_member (registry [])) as [H1 H2]. split.
  - apply (H1 "S" [("A", "", "", TInt)] [VInt 1] (JObj [("A", JNum 1)]) 0 ("A", "", "", TInt) (VInt 1)).
    + vm_compute. reflexivity.
    + reflexivity.
    + reflexivity.
    + reflexivity.
    + discriminate.
  - apply (H2 TString TInt [(VStr "k", VInt 1)] (JObj [("k", JStr "MQ==")])).
    + vm_compute. reflexivity.
    + left. reflexivity.
Defined.

Lemma UnmarshalWithTypeIDs_wrong_shape_witness :
  UnmarshalWithTypeIDs noMethods (JNum 1) (Some (VInt 0)) (registry []) = Err (ENotPointer (dynTypeOf (VInt 0))) /\
  UnmarshalWithTypeIDs noMethods (JNum 1)
    (Some (VPtr anyTy (Some (VIface anyName [] (Some (VPtr TInt (Some (VInt 0)))))))) (registry []) =
    Err (ENotPointer (dynTypeOf (VIface anyName [] (Some (VPtr TInt (Some (VInt 0))))))).
Proof.
  destruct (UnmarshalWithTypeIDs_wrong_shape noMethods (registry []) (JNum 1)) as [H1 H2]. split.
  - apply H1. intros t p. discriminate.
  - apply H2.
Defined.

Lemma pointer_slot_decode_witness :
  unmarshalTo noMethods (registry []) (decodeContent noMethods (registry [])) (decodeWrapped noMethods (registry []))
    (VPtr TInt (Some (VInt 3))) (TPtr TInt) JNull = Ok (VPtr TInt None) /\
  unmarshalTo noMethods (registry []) (decodeContent noMethods (registry [])) (decodeWrapped noMethods (registry []))
    (VPtr TInt None) (TPtr TInt) (JNum 5) =
    wrap EUnmarshal (y <- decode noMethods (registry []) (JNum 5) TInt (Some (zero TInt)) true ;;
                     Ok (VPtr TInt (Some y))).
Proof.
  destruct (pointer_slot_decode noMethods (registry []) TInt) as [H1 H2]. split.
  - apply H1.
  - apply (H2 None (JNum 5)). discriminate.
Defined.

Lemma wrapper_resolver_failures_witness :
  unmarshalTo noMethods (registry []) (decodeContent noMethods (registry []))
    (decodeWrapped noMethods (registry [])) (zero anyTy) anyTy (JObj [("T", JNum 1)]) =
    Err (ENewByTypeID "T" (EResolver "unknown type ID")) /\
  unmarshalTo noMethods nilNewByTypeID (decodeContent noMethods nilNewByTypeID)
    (decodeWrapped noMethods nilNewByTypeID) (zero anyTy) anyTy (JObj [("T", JNum 1)]) =
    Panic zeroValueInterface /\
  unmarshalTo noMethods valueNewByTypeID (decodeContent noMethods valueNewByTypeID)
    (decodeWrapped noMethods valueNewByTypeID) (zero anyTy) anyTy (JObj [("T", JNum 1)]) =
    Err (EUnmarshal (ENotPointer (dynTypeOf (VInt 0)))).
Proof.
  split; [|split].
  - apply (wrapper_resolver_failures noMethods (registry []) (decodeContent noMethods (registry []))
             (zero anyTy) anyTy (JObj [("T", JNum 1)]) "T" (JNum 1)); [reflexivity|discriminate|reflexivity|].
    reflexivity.
  - apply (wrapper_resolver_failures noMethods nilNewByTypeID (decodeContent noMethods nilNewByTypeID)
             (zero anyTy) anyTy (JObj [("T", JNum 1)]) "T" (JNum 1)); [reflexivity|discriminate|reflexivity|].
    reflexivity.
  - apply (wrapper_resolver_failures noMethods valueNewByTypeID (decodeContent noMethods valueNewByTypeID)
             (zero anyTy) anyTy (JObj [("T", JNum 1)]) "T" (JNum 1)); [reflexivity|discriminate|reflexivity| |].
    + reflexivity.
    + intros t p. discriminate.
Defined.

Lemma struct_decode_keeps_unaddressed_witness :
  exists vs', VStruct "S" [("A", "", "", TInt); ("b", "main", "", TInt); ("C", "", "", TInt)] [VInt 1; VInt 8; VInt 9] =
              VStruct "S" [("A", "", "", TInt); ("b", "main", "", TInt); ("C", "", "", TInt)] vs' /\
    List.length vs' = List.length [VInt 0; VInt 8; VInt 9] /\
    forall i f, nth_error [("A", "", "", TInt); ("b", "main", "", TInt); ("C", "", "", TInt)] i = Some f ->
      (fPkgPath f <> "" \/ fTag f = "-" \/
       Forall (fun key => lastMatch [("A", "", "", TInt); ("b", "main", "", TInt); ("C", "", "", TInt)] key <> Some i)
         (map fst [("A", JNum 1); ("b", JNum 2); ("z", JNum 3)])) ->
      nth_error vs' i = nth_error [VInt 0; VInt 8; VInt 9] i.
Proof.
  apply (struct_decode_keeps_unaddressed noMethods (registry []) "S"
           [("A", "", "", TInt); ("b", "main", "", TInt); ("C", "", "", TInt)] [VInt 0; VInt 8; VInt 9]
           [("A", JNum 1); ("b", JNum 2); ("z", JNum 3)] false).
  vm_compute. reflexivity.
Defined.

Lemma struct_ignores_non_object_witness :
  decode noMethods (registry []) (JArr [JNum 1; JNull]) (TStruct "S" [("A", "", "", TInt)])
    (Some (VStruct "S" [("A", "", "", TInt)] [VInt 7])) false = Ok (VStruct "S" [("A", "", "", TInt)] [VInt 7]).
Proof.
  apply struct_ignores_non_object.
  - intros ps. discriminate.
  - constructor; [simpl; discriminate|constructor].
Defined.

Lemma map_decode_last_member_wins_witness :
  exists m', VMap TString TInt (Some [(VStr "a", VInt 2)]) = VMap TString TInt m' /\ NoDup (mapKeys m') /\
    forall pre key value post, [("a", JNum 1); ("a", JNum 2)] = (pre ++ (key, value) :: post)%list ->
      ~ In key (map fst post) ->
      exists es y, m' = Some es /\ mapIndex es (VStr key) = Some y /\
        unmarshalTo noMethods (registry []) (decodeContent noMethods (registry []))
          (decodeWrapped noMethods (registry [])) (zero TInt) TInt value = Ok y.
Proof.
  apply (map_decode_last_member_wins noMethods (registry []) TInt None [("a", JNum 1); ("a", JNum 2)] false).
  vm_compute. reflexivity.
Defined.

Lemma map_non_object_single_entry_witness :
  decode noMethods (registry []) (JNum 5) (TMap TString TInt)
    (Some (VMap TString TInt (Some [(VStr "k", VInt 1)]))) false =
    Ok (VMap TString TInt (Some [(VStr "", VInt 5)])) /\
  decode noMethods (registry []) (JNum 5) (TMap TString TInt)
    (Some (VMap TString TInt (Some [(VStr "k", VInt 1)]))) false =
  (y <- wrap (EEntry (JNum 5) "")
          (unmarshalTo noMethods (registry []) (decodeContent noMethods (registry []))
             (decodeWrapped noMethods (registry [])) (zero TInt) TInt (JNum 5)) ;;
   Ok (VMap TString TInt (Some [(VStr "", y)]))).
Proof.
  split; [vm_compute; reflexivity|].
  apply map_non_object_single_entry; intros ? H; discriminate.
Defined.
